(** * OpenObs link-graph front end: graph transform, result caches, wikilink matching

    A shallow embedding of the TypeScript sources
    - the [useGraph] hook module (imported as [hooks/useGraph]; its text is
      the last part of [src/components/ui/Spinner.tsx], lines 404-907): graph
      types, [calculateNodeSize], [transformToD3], the [useGraph] and
      [useLocalGraph] fetchers and [graphCache],
    - [src/hooks/useLinks.ts], lines 1-130: the [useLinks] fetcher and
      [linksCache],
    - [src/components/editor/extensions/wikilink.ts]: [wikilinkRegex] and
      [buildWikilinkDecorations],
    - [src/components/editor/ReadingView.tsx]: [stripFrontmatter] and
      [preprocessMarkdown],
    - the link resolution of the two graph views ([src/unnamed/part_009] and
      [src/components/graph/LocalGraph.tsx]).

    Conventions.  JavaScript [number]s that hold counts and millisecond clocks
    are integers and are modelled as [Z]; the one place where a quotient is
    taken ([calculateNodeSize]) is modelled over the exact rationals [Q], so
    binary64 rounding is not part of the model.  Strings are [string]s of
    8-bit characters.  [Map<string, _>] is a [gmap string _], [Set<string>] a
    [gset string].  An [async] function is split at its [await] into the
    synchronous prefix and the continuations that run when the promise
    settles; each of them is a function on the explicit hook state. *)

From Stdlib Require Import ZArith QArith Ascii String List Lia DecimalString.
From Stdlib Require Import DecimalPos Sorted Permutation.
From stdpp Require Import base decidable option list gmap strings.

Local Open Scope string_scope.
Local Open Scope Z_scope.

(* ====================================================================== *)
(** ** JavaScript string helpers *)
(* ====================================================================== *)

Module JsString.

(** [s.startsWith(p)] *)
Definition startsWith (s p : string) : bool := String.prefix p s.

(** Truthiness of a string-valued optional: [undefined], [null] and the
    empty string are falsy. *)
Definition truthy (o : option string) : bool :=
  match o with
  | Some s => negb (String.eqb s EmptyString)
  | None => false
  end.

(** [s.lastIndexOf(c)]: index of the last occurrence, [-1] when absent. *)
Fixpoint lastIndexOf_from (c : ascii) (i : Z) (s : string) (acc : Z) : Z :=
  match s with
  | EmptyString => acc
  | String a s' =>
      lastIndexOf_from c (i + 1) s' (if Ascii.eqb a c then i else acc)
  end.

Definition lastIndexOf (s : string) (c : ascii) : Z :=
  lastIndexOf_from c 0 s (-1).

(** [s.substring(0, n)] for [0 <= n]. *)
Definition substring0 (n : Z) (s : string) : string :=
  String.substring 0 (Z.to_nat n) s.

(** [s.includes(sub)] *)
Fixpoint includes (s sub : string) : bool :=
  String.prefix sub s ||
  match s with
  | EmptyString => false
  | String _ s' => includes s' sub
  end.

(** [s.slice(from, to)] for [from <= to]. *)
Definition slice (s : string) (from to : nat) : string :=
  String.substring from (to - from) s.

(** ASCII [toLowerCase]. *)
Definition lowerChar (c : ascii) : ascii :=
  let n := nat_of_ascii c in
  if ((65 <=? n) && (n <=? 90))%nat then ascii_of_nat (n + 32) else c.

Fixpoint toLowerCase (s : string) : string :=
  match s with
  | EmptyString => EmptyString
  | String c s' => String (lowerChar c) (toLowerCase s')
  end.

(** The double-quote character, as a one-character string. *)
Definition dq : string := String "034"%char EmptyString.

(** Decimal rendering of an integer, as template literals do. *)
Definition ofZ (z : Z) : string :=
  match z with
  | Z0 => "0"
  | Zpos p => DecimalString.NilEmpty.string_of_uint (Pos.to_uint p)
  | Zneg p => "-" ++ DecimalString.NilEmpty.string_of_uint (Pos.to_uint p)
  end.

(** [new Set(xs)] read back in iteration order: the first occurrence of
    each string, in insertion order. *)
Definition distinct (xs : list string) : list string :=
  fold_left (fun seen x => if existsb (String.eqb x) seen then seen
                           else (seen ++ [x])%list) xs [].

(** [xs.sort()] with the default comparison: ascending by code units. *)
Fixpoint insertSorted (x : string) (l : list string) : list string :=
  match l with
  | [] => [x]
  | y :: l' => if String.leb x y then x :: l else y :: insertSorted x l'
  end.

Definition sort (xs : list string) : list string :=
  fold_right insertSorted [] xs.

End JsString.

(* ====================================================================== *)
(** ** Outcome of the synchronous prefix of a fetcher *)
(* ====================================================================== *)

(** What a fetcher did before its first [await]: returned at the in-flight
    guard, cleared the state because no path is selected, served the cached
    entry, or issued the backend command. *)
Inductive FetchOutcome := Skipped | Cleared | CacheHit | Invoked.

(** A rejected [invoke]: [Some msg] is an [Error] with that message, [None]
    any other thrown value. *)
Definition errorMessage (fallback : string) (err : option string) : string :=
  default fallback err.

(* ====================================================================== *)
(** ** useGraph.ts: types, node sizing and the D3 transform *)
(* ====================================================================== *)

Module UseGraph.

(** ['note' | 'concept'] *)
Inductive NodeType := note | concept.
(** ['direct' | 'concept']; the second is spelled [conceptEdge] here. *)
Inductive EdgeType := direct | conceptEdge.

(** Graph node from the backend. *)
Record GraphNode := mkGraphNode {
  id : string;
  label : string;
  path : string;
  connections : Z;
  nodeType : NodeType;
}.

(** Graph edge from the backend; [concept] is present on concept edges. *)
Record GraphEdge := mkGraphEdge {
  source : string;
  target : string;
  edgeType : EdgeType;
  edgeConcept : option string;
}.

Record ConceptInfo := mkConceptInfo {
  name : string;
  count : Z;
  notes : list string;
}.

Record GraphData := mkGraphData {
  nodes : list GraphNode;
  edges : list GraphEdge;
  concepts : list ConceptInfo;
}.

(** [D3Node extends GraphNode]: the five backend fields are copied by the
    object spread, then [size], [isCenter] and [folder] are set.  The
    simulation coordinates and [tags] are left undefined by the transform. *)
Record D3Node := mkD3Node {
  d3_id : string;
  d3_label : string;
  d3_path : string;
  d3_connections : Z;
  d3_nodeType : NodeType;
  size : Q;
  isCenter : bool;
  folder : string;
  tags : option (list string);
}.

Record D3Edge := mkD3Edge {
  d3_source : string;
  d3_target : string;
  d3_edgeType : EdgeType;
  d3_concept : option string;
}.

Record D3GraphData := mkD3GraphData {
  d3_nodes : list D3Node;
  d3_edges : list D3Edge;
  d3_concepts : list ConceptInfo;
}.

Record GraphFilterOptions := mkFilters {
  folderPath : option string;
  tag : option string;
  showOrphans : option bool;
  showConceptLinks : option bool;
}.

Definition CACHE_TTL : Z := 60000.

Definition getFolderPath (p : string) : string :=
  let lastSlash := JsString.lastIndexOf p "/"%char in
  if 0 <? lastSlash then JsString.substring0 lastSlash p else "/".

(** Node size from the connection count; a value between [minSize] and
    [maxSize]. *)
Definition calculateNodeSize (connections maxConnections : Z) : Q :=
  let minSize : Q := 4%Q in
  let maxSize : Q := 20%Q in
  if maxConnections =? 0 then minSize
  else
    let ratio := (inject_Z connections / inject_Z maxConnections)%Q in
    (minSize + ratio * (maxSize - minSize))%Q.

Definition isConceptEdge (e : GraphEdge) : bool :=
  match edgeType e with conceptEdge => true | direct => false end.

(** [Math.max(...xs, 1)] *)
Definition maxWith1 (xs : list Z) : Z := fold_right Z.max 1 xs.

(** First pass over the nodes: folder scope and zero-count orphans. *)
Definition nodePass (fp : option string) (showOrph : bool) (n : GraphNode) : bool :=
  if JsString.truthy fp &&
     negb (JsString.startsWith (path n) (default EmptyString fp))
  then false
  else if negb showOrph && (connections n =? 0) then false
  else true.

Definition idSet (ns : list GraphNode) : gset string :=
  list_to_set (map id ns).

(** Edge pass: both endpoints valid, concept edges only when shown. *)
Definition edgePass (valid : gset string) (showConcept : bool) (e : GraphEdge) : bool :=
  if negb (bool_decide (source e ∈ valid)) || negb (bool_decide (target e ∈ valid))
  then false
  else if negb showConcept && isConceptEdge e then false
  else true.

(** The [forEach] that fills [connectedIds]. *)
Definition connectedIdsOf (es : list GraphEdge) : gset string :=
  fold_left (fun acc e => acc ∪ {[source e]} ∪ {[target e]}) es ∅.

Definition toD3Node (maxConnections : Z) (centerPath : option string)
    (n : GraphNode) : D3Node :=
  {| d3_id := id n;
     d3_label := label n;
     d3_path := path n;
     d3_connections := connections n;
     d3_nodeType := nodeType n;
     size := calculateNodeSize (connections n) maxConnections;
     isCenter := if JsString.truthy centerPath
                 then String.eqb (path n) (default EmptyString centerPath)
                 else false;
     folder := getFolderPath (path n);
     tags := None |}.

Definition toD3Edge (e : GraphEdge) : D3Edge :=
  {| d3_source := source e;
     d3_target := target e;
     d3_edgeType := edgeType e;
     d3_concept := edgeConcept e |}.

(** The nodes and edges that survive the filters, before conversion. *)
Definition filteredNodes0 (data : GraphData) (filters : GraphFilterOptions)
    : list GraphNode :=
  List.filter (nodePass (folderPath filters) (default true (showOrphans filters)))
              (nodes data).

Definition filteredEdges (data : GraphData) (filters : GraphFilterOptions)
    : list GraphEdge :=
  List.filter (edgePass (idSet (filteredNodes0 data filters))
                        (default true (showConceptLinks filters)))
              (edges data).

Definition filteredNodes (data : GraphData) (filters : GraphFilterOptions)
    : list GraphNode :=
  if default true (showOrphans filters) then filteredNodes0 data filters
  else
    let connectedIds := connectedIdsOf (filteredEdges data filters) in
    List.filter (fun n => bool_decide (id n ∈ connectedIds) || (0 <? connections n))
                (filteredNodes0 data filters).

Definition transformToD3 (data : GraphData) (filters : GraphFilterOptions)
    (centerPath : option string) : D3GraphData :=
  let maxConnections := maxWith1 (map connections (nodes data)) in
  let validNodeIds := idSet (filteredNodes0 data filters) in
  {| d3_nodes := map (toD3Node maxConnections centerPath) (filteredNodes data filters);
     d3_edges := map toD3Edge (filteredEdges data filters);
     d3_concepts :=
       List.filter
         (fun c => existsb (fun notePath => bool_decide (notePath ∈ validNodeIds))
                           (notes c))
         (concepts data) |}.

(** *** The graph cache and the two fetchers *)

Record CacheEntry := mkCacheEntry {
  data : GraphData;
  timestamp : Z;
}.

(** State of one [useGraph] instance. *)
Record GraphHook := mkGraphHook {
  rawData : option GraphData;
  isLoading : bool;
  error : option string;
  fetchInProgressRef : bool;
}.

Definition initGraphHook : GraphHook :=
  {| rawData := None; isLoading := false; error := None;
     fetchInProgressRef := false |}.

(** [fetchGraph] up to the [await]; [now] is the value of [Date.now()]. *)
Definition fetchGraph_start (now : Z) (graphCache : gmap string CacheEntry)
    (h : GraphHook) : GraphHook * FetchOutcome :=
  if fetchInProgressRef h then (h, Skipped)
  else
    match graphCache !! "full" with
    | Some cached =>
        if now - timestamp cached <? CACHE_TTL then
          ({| rawData := Some (data cached); isLoading := isLoading h;
              error := None; fetchInProgressRef := fetchInProgressRef h |},
           CacheHit)
        else
          ({| rawData := rawData h; isLoading := true; error := None;
              fetchInProgressRef := true |}, Invoked)
    | None =>
        ({| rawData := rawData h; isLoading := true; error := None;
            fetchInProgressRef := true |}, Invoked)
    end.

(** [fetchGraph] after [invoke] fulfilled with [d]. *)
Definition fetchGraph_resolve (d : GraphData) (now : Z)
    (graphCache : gmap string CacheEntry) (h : GraphHook)
    : gmap string CacheEntry * GraphHook :=
  (<["full" := {| data := d; timestamp := now |}]> graphCache,
   {| rawData := Some d; isLoading := false; error := error h;
      fetchInProgressRef := false |}).

(** [fetchGraph] after [invoke] rejected. *)
Definition fetchGraph_reject (err : option string) (h : GraphHook) : GraphHook :=
  {| rawData := rawData h; isLoading := false;
     error := Some (errorMessage "Failed to fetch graph data" err);
     fetchInProgressRef := false |}.

(** State of one [useLocalGraph] instance ([centerPath] is a prop and
    [depth] a state cell; both are captured by the [fetchLocalGraph]
    closure and passed here as arguments). *)
Record LocalHook := mkLocalHook {
  l_rawData : option GraphData;
  l_isLoading : bool;
  l_error : option string;
  currentPathRef : option string;
}.

Definition initLocalHook : LocalHook :=
  {| l_rawData := None; l_isLoading := false; l_error := None;
     currentPathRef := None |}.

Definition cacheKey (centerPath : string) (depth : Z) : string :=
  "local:" ++ centerPath ++ ":" ++ JsString.ofZ depth.

Definition fetchLocalGraph_start (centerPath : option string) (depth : Z)
    (now : Z) (graphCache : gmap string CacheEntry) (h : LocalHook)
    : LocalHook * FetchOutcome :=
  if negb (JsString.truthy centerPath) then
    ({| l_rawData := None; l_isLoading := l_isLoading h; l_error := None;
        currentPathRef := currentPathRef h |}, Cleared)
  else
    let hit (cached : CacheEntry) :=
      ({| l_rawData := Some (data cached); l_isLoading := l_isLoading h;
          l_error := None; currentPathRef := currentPathRef h |}, CacheHit) in
    let miss :=
      ({| l_rawData := l_rawData h; l_isLoading := true; l_error := None;
          currentPathRef := centerPath |}, Invoked) in
    match graphCache !! cacheKey (default EmptyString centerPath) depth with
    | Some cached =>
        if now - timestamp cached <? CACHE_TTL then hit cached else miss
    | None => miss
    end.

Definition isCurrent (ref : option string) (p : string) : bool :=
  bool_decide (ref = Some p).

Definition fetchLocalGraph_resolve (centerPath : string) (depth : Z)
    (d : GraphData) (now : Z) (graphCache : gmap string CacheEntry)
    (h : LocalHook) : gmap string CacheEntry * LocalHook :=
  if isCurrent (currentPathRef h) centerPath then
    (<[cacheKey centerPath depth := {| data := d; timestamp := now |}]> graphCache,
     {| l_rawData := Some d; l_isLoading := false; l_error := l_error h;
        currentPathRef := currentPathRef h |})
  else (graphCache, h).

Definition fetchLocalGraph_reject (centerPath : string) (err : option string)
    (h : LocalHook) : LocalHook :=
  if isCurrent (currentPathRef h) centerPath then
    {| l_rawData := l_rawData h; l_isLoading := false;
       l_error := Some (errorMessage "Failed to fetch local graph" err);
       currentPathRef := currentPathRef h |}
  else h.

(** [clearGraphCache(key?)]: a falsy key clears everything. *)
Definition clearGraphCache (key : option string)
    (graphCache : gmap string CacheEntry) : gmap string CacheEntry :=
  if JsString.truthy key then delete (default EmptyString key) graphCache else ∅.

(** One [useLocalGraph] instance driven by its events.  [Fetch] is a call
    of [fetchLocalGraph] for the hook's current [centerPath] and [depth]
    (by the effect after a render that changed them, or by [refresh]);
    [Resolved] and [Rejected] settle the request that was issued for that
    path and depth. *)
Inductive LocalEvent :=
| Fetch (centerPath : option string) (depth : Z) (now : Z)
| Resolved (centerPath : string) (depth : Z) (d : GraphData) (now : Z)
| Rejected (centerPath : string) (err : option string).

Record LocalWorld := mkLocalWorld {
  graphCache : gmap string CacheEntry;
  hook : LocalHook;
  (** the [centerPath] of the latest call: the path of interest *)
  selected : option string;
  (** number of backend commands issued so far *)
  invoked : nat;
}.

Definition initLocalWorld : LocalWorld :=
  {| graphCache := ∅; hook := initLocalHook; selected := None; invoked := 0 |}.

Definition localStep (w : LocalWorld) (ev : LocalEvent) : LocalWorld :=
  match ev with
  | Fetch p depth now =>
      let '(h, out) := fetchLocalGraph_start p depth now (graphCache w) (hook w) in
      {| graphCache := graphCache w; hook := h; selected := p;
         invoked := match out with Invoked => S (invoked w) | _ => invoked w end |}
  | Resolved p depth d now =>
      let '(c, h) := fetchLocalGraph_resolve p depth d now (graphCache w) (hook w) in
      {| graphCache := c; hook := h; selected := selected w; invoked := invoked w |}
  | Rejected p err =>
      {| graphCache := graphCache w;
         hook := fetchLocalGraph_reject p err (hook w);
         selected := selected w; invoked := invoked w |}
  end.

Definition localRun (evs : list LocalEvent) : LocalWorld :=
  fold_left localStep evs initLocalWorld.

(** *** The derived graph, [refresh] and the list helpers *)



(** [useGraph.refresh] up to the [await] inside [fetchGraph]. *)
Definition refresh_start (now : Z) (graphCache : gmap string CacheEntry)
    (h : GraphHook) : gmap string CacheEntry * (GraphHook * FetchOutcome) :=
  let graphCache' := delete "full" graphCache in
  (graphCache', fetchGraph_start now graphCache' h).

(** [useLocalGraph.refresh] up to the [await] inside [fetchLocalGraph]. *)
Definition localRefresh_start (centerPath : option string) (depth : Z)
    (now : Z) (graphCache : gmap string CacheEntry) (h : LocalHook)
    : gmap string CacheEntry * (LocalHook * FetchOutcome) :=
  let graphCache' :=
    if JsString.truthy centerPath
    then delete (cacheKey (default EmptyString centerPath) depth) graphCache
    else graphCache in
  (graphCache', fetchLocalGraph_start centerPath depth now graphCache' h).

(** [getUniqueFolders(data)] *)
Definition getUniqueFolders (data : option GraphData) : list string :=
  match data with
  | None => []
  | Some d =>
      JsString.sort
        (JsString.distinct (map (fun n => getFolderPath (path n)) (nodes d)))
  end.


End UseGraph.

(* ====================================================================== *)
(** ** useLinks.ts: backlinks and outgoing links of one note *)
(* ====================================================================== *)

Module UseLinks.

Record LinkInfo := mkLinkInfo {
  path : string;
  title : string;
  link_text : option string;
}.

Record CacheEntry := mkCacheEntry {
  c_backlinks : list LinkInfo;
  c_outgoingLinks : list LinkInfo;
  timestamp : Z;
}.

Definition CACHE_TTL : Z := 30000.

(** State of one [useLinks] instance. *)
Record LinksHook := mkLinksHook {
  backlinks : list LinkInfo;
  outgoingLinks : list LinkInfo;
  isLoading : bool;
  error : option string;
  currentPathRef : option string;
}.

Definition initLinksHook : LinksHook :=
  {| backlinks := []; outgoingLinks := []; isLoading := false; error := None;
     currentPathRef := None |}.

(** [fetchLinks] up to the [await Promise.all(...)]. *)
Definition fetchLinks_start (path : option string) (now : Z)
    (linksCache : gmap string CacheEntry) (h : LinksHook)
    : LinksHook * FetchOutcome :=
  if negb (JsString.truthy path) then
    ({| backlinks := []; outgoingLinks := []; isLoading := isLoading h;
        error := None; currentPathRef := currentPathRef h |}, Cleared)
  else
    let hit (cached : CacheEntry) :=
      ({| backlinks := c_backlinks cached;
          outgoingLinks := c_outgoingLinks cached;
          isLoading := isLoading h; error := None;
          currentPathRef := currentPathRef h |}, CacheHit) in
    let miss :=
      ({| backlinks := backlinks h; outgoingLinks := outgoingLinks h;
          isLoading := true; error := None; currentPathRef := path |},
       Invoked) in
    match linksCache !! default EmptyString path with
    | Some cached =>
        if now - timestamp cached <? CACHE_TTL then hit cached else miss
    | None => miss
    end.

Definition isCurrent (ref : option string) (p : string) : bool :=
  bool_decide (ref = Some p).

(** [fetchLinks] after both commands fulfilled. *)
Definition fetchLinks_resolve (path : string)
    (newBacklinks newOutgoingLinks : list LinkInfo) (now : Z)
    (linksCache : gmap string CacheEntry) (h : LinksHook)
    : gmap string CacheEntry * LinksHook :=
  if isCurrent (currentPathRef h) path then
    (<[path := {| c_backlinks := newBacklinks;
                  c_outgoingLinks := newOutgoingLinks;
                  timestamp := now |}]> linksCache,
     {| backlinks := newBacklinks; outgoingLinks := newOutgoingLinks;
        isLoading := false; error := error h;
        currentPathRef := currentPathRef h |})
  else (linksCache, h).

(** [fetchLinks] after one of the commands rejected. *)
Definition fetchLinks_reject (path : string) (err : option string)
    (h : LinksHook) : LinksHook :=
  if isCurrent (currentPathRef h) path then
    {| backlinks := backlinks h; outgoingLinks := outgoingLinks h;
       isLoading := false;
       error := Some (errorMessage "Failed to fetch links" err);
       currentPathRef := currentPathRef h |}
  else h.

Definition clearLinksCache (path : option string)
    (linksCache : gmap string CacheEntry) : gmap string CacheEntry :=
  if JsString.truthy path then delete (default EmptyString path) linksCache else ∅.

(** One [useLinks] instance driven by its events.  [Fetch p now] is a call
    of [fetchLinks] for the hook's current [path = p] (by the effect after
    a render that changed the path, or by [refresh]); [Resolved] and
    [Rejected] settle the request that was issued for that path. *)
Inductive LinksEvent :=
| Fetch (path : option string) (now : Z)
| Resolved (path : string) (bl ol : list LinkInfo) (now : Z)
| Rejected (path : string) (err : option string).

Record LinksWorld := mkLinksWorld {
  linksCache : gmap string CacheEntry;
  hook : LinksHook;
  (** the [path] of the latest call: the path of interest *)
  selected : option string;
  (** number of times the pair of backend commands was issued *)
  invoked : nat;
}.

Definition initLinksWorld : LinksWorld :=
  {| linksCache := ∅; hook := initLinksHook; selected := None; invoked := 0 |}.

Definition linksStep (w : LinksWorld) (ev : LinksEvent) : LinksWorld :=
  match ev with
  | Fetch p now =>
      let '(h, out) := fetchLinks_start p now (linksCache w) (hook w) in
      {| linksCache := linksCache w; hook := h; selected := p;
         invoked := match out with Invoked => S (invoked w) | _ => invoked w end |}
  | Resolved p bl ol now =>
      let '(c, h) := fetchLinks_resolve p bl ol now (linksCache w) (hook w) in
      {| linksCache := c; hook := h; selected := selected w; invoked := invoked w |}
  | Rejected p err =>
      {| linksCache := linksCache w; hook := fetchLinks_reject p err (hook w);
         selected := selected w; invoked := invoked w |}
  end.

Definition linksRun (evs : list LinksEvent) : LinksWorld :=
  fold_left linksStep evs initLinksWorld.

(** [refresh] up to the [await] inside [fetchLinks]. *)
Definition refresh_start (path : option string) (now : Z)
    (linksCache : gmap string CacheEntry) (h : LinksHook)
    : gmap string CacheEntry * (LinksHook * FetchOutcome) :=
  let linksCache' :=
    if JsString.truthy path then delete (default EmptyString path) linksCache
    else linksCache in
  (linksCache', fetchLinks_start path now linksCache' h).

End UseLinks.

(* ====================================================================== *)
(** ** Regular expressions: the fragment of ECMAScript the sources use *)
(* ====================================================================== *)

Module Regex.

(** Syntax.  Every quantified atom in the sources is a single-character
    class, so the repetition constructors take the class directly. *)
Inductive regex :=
| Chr (c : ascii)                 (* a literal character *)
| Cls (p : ascii -> bool)         (* one character of a class *)
| Seq (r1 r2 : regex)
| Alt (r1 r2 : regex)             (* r1|r2, left first *)
| Opt (r : regex)                 (* r?  greedy *)
| Star (p : ascii -> bool)        (* [p]*  greedy *)
| Plus (p : ascii -> bool)        (* [p]+  greedy *)
| LazyStar (p : ascii -> bool)    (* [p]*? *)
| Grp (n : nat) (r : regex)       (* capture group number n *)
| Bos                             (* ^ without the m flag *)
| Bol                             (* ^ with the m flag *)
| Eol.                            (* $ with the m flag *)

(** Literal text. *)
Fixpoint Lit (s : string) (r : regex) : regex :=
  match s with
  | EmptyString => r
  | String c s' => Seq (Chr c) (Lit s' r)
  end.

(** Matcher state: index into the subject, the character before it, the
    rest of the subject and the captures made so far (latest first). *)
Record mstate := mkM {
  pos : nat;
  prev : option ascii;
  rest : string;
  caps : list (nat * string);
}.

Definition isLineTerminator (c : ascii) : bool :=
  Ascii.eqb c "010"%char || Ascii.eqb c "013"%char.

(** [\s] on 8-bit characters: TAB, LF, VT, FF, CR, space, NBSP. *)
Definition isSpace (c : ascii) : bool :=
  let n := nat_of_ascii c in
  (((9 <=? n) && (n <=? 13)) || (n =? 32) || (n =? 160))%nat.

(** [\w] *)
Definition isWord (c : ascii) : bool :=
  let n := nat_of_ascii c in
  (((48 <=? n) && (n <=? 57)) || ((65 <=? n) && (n <=? 90)) ||
   ((97 <=? n) && (n <=? 122)) || (n =? 95))%nat.

Definition anyChar (c : ascii) : bool := true.
Definition dot (c : ascii) : bool := negb (isLineTerminator c).
Definition noneOf (cs : list ascii) (c : ascii) : bool :=
  negb (existsb (Ascii.eqb c) cs).
Definition oneOf (cs : list ascii) (c : ascii) : bool :=
  existsb (Ascii.eqb c) cs.

Section Matcher.
Context {R : Type}.

(** Greedy repetition of a class: take one more character first, fall
    back to the continuation at the current position. *)
Fixpoint starGreedy (p : ascii -> bool) (s : string) (i : nat)
    (pv : option ascii) (k : nat -> option ascii -> string -> option R)
    : option R :=
  match s with
  | String c s' =>
      if p c then
        match starGreedy p s' (S i) (Some c) k with
        | Some x => Some x
        | None => k i pv s
        end
      else k i pv s
  | EmptyString => k i pv s
  end.

(** Lazy repetition: try the continuation first, then one more character. *)
Fixpoint starLazy (p : ascii -> bool) (s : string) (i : nat)
    (pv : option ascii) (k : nat -> option ascii -> string -> option R)
    : option R :=
  match k i pv s with
  | Some x => Some x
  | None =>
      match s with
      | String c s' => if p c then starLazy p s' (S i) (Some c) k else None
      | EmptyString => None
      end
  end.

Definition resume (st : mstate) (k : mstate -> option R)
    (i : nat) (pv : option ascii) (s : string) : option R :=
  k {| pos := i; prev := pv; rest := s; caps := caps st |}.

(** Backtracking matcher in continuation-passing style. *)
Fixpoint rmatch (r : regex) (st : mstate) (k : mstate -> option R)
    : option R :=
  match r with
  | Chr c =>
      match rest st with
      | String a s' =>
          if Ascii.eqb a c then resume st k (S (pos st)) (Some a) s' else None
      | EmptyString => None
      end
  | Cls p =>
      match rest st with
      | String a s' =>
          if p a then resume st k (S (pos st)) (Some a) s' else None
      | EmptyString => None
      end
  | Seq r1 r2 => rmatch r1 st (fun st1 => rmatch r2 st1 k)
  | Alt r1 r2 =>
      match rmatch r1 st k with
      | Some x => Some x
      | None => rmatch r2 st k
      end
  | Opt r1 =>
      match rmatch r1 st k with
      | Some x => Some x
      | None => k st
      end
  | Star p => starGreedy p (rest st) (pos st) (prev st) (resume st k)
  | Plus p =>
      match rest st with
      | String a s' =>
          if p a then starGreedy p s' (S (pos st)) (Some a) (resume st k)
          else None
      | EmptyString => None
      end
  | LazyStar p => starLazy p (rest st) (pos st) (prev st) (resume st k)
  | Grp n r1 =>
      rmatch r1 st (fun st1 =>
        k {| pos := pos st1; prev := prev st1; rest := rest st1;
             caps := (n, String.substring 0 (pos st1 - pos st) (rest st))
                     :: caps st1 |})
  | Bos => if (pos st =? 0)%nat then k st else None
  | Bol =>
      match prev st with
      | None => k st
      | Some c => if isLineTerminator c then k st else None
      end
  | Eol =>
      match rest st with
      | EmptyString => k st
      | String c _ => if isLineTerminator c then k st else None
      end
  end.
End Matcher.

(** A successful match: where it starts, the text it covers, its captures. *)
Record MatchResult := mkMatch {
  index : nat;
  matched : string;
  groups : list (nat * string);
}.

(** [$n] of a match; a group that did not take part reads as empty. *)
Fixpoint lookupGroup (n : nat) (gs : list (nat * string)) : option string :=
  match gs with
  | [] => None
  | (m, v) :: gs' => if (m =? n)%nat then Some v else lookupGroup n gs'
  end.

Definition group (n : nat) (m : MatchResult) : string :=
  default EmptyString (lookupGroup n (groups m)).

(** Try the expression at one position of the subject. *)
Definition matchAt (r : regex) (s : string) (i : nat) (pv : option ascii)
    : option MatchResult :=
  rmatch r {| pos := i; prev := pv; rest := s; caps := [] |}
    (fun st1 => Some {| index := i;
                        matched := String.substring 0 (pos st1 - i) s;
                        groups := caps st1 |}).

(** The subject cut into the characters no match covers and the matches, in
    order: what a [g]-flag scan that restarts at the end of each match
    sees.  [skip] counts the characters still covered by the last match.
    After an empty match the scan moves on by one character, as
    [String.prototype.replace] does. *)
Inductive Segment := Keep (c : ascii) | Hit (m : MatchResult).

Fixpoint scanFrom (r : regex) (s : string) (i : nat) (pv : option ascii)
    (skip : nat) : list Segment :=
  match skip with
  | S skip' =>
      match s with
      | String c s' => scanFrom r s' (S i) (Some c) skip'
      | EmptyString => []
      end
  | O =>
      match matchAt r s i pv with
      | Some m =>
          Hit m ::
          match s with
          | String c s' =>
              match String.length (matched m) with
              | O => Keep c :: scanFrom r s' (S i) (Some c) O
              | S n => scanFrom r s' (S i) (Some c) n
              end
          | EmptyString => []
          end
      | None =>
          match s with
          | String c s' => Keep c :: scanFrom r s' (S i) (Some c) O
          | EmptyString => []
          end
      end
  end.

Definition scan (r : regex) (s : string) : list Segment :=
  scanFrom r s 0 None 0.

(** The successive results of [exec] on a [g]-flag expression. *)
Definition matchAll (r : regex) (s : string) : list MatchResult :=
  omap (fun g => match g with Hit m => Some m | Keep _ => None end) (scan r s).

Fixpoint render (f : MatchResult -> string) (segs : list Segment) : string :=
  match segs with
  | [] => EmptyString
  | Keep c :: segs' => String c (render f segs')
  | Hit m :: segs' => f m ++ render f segs'
  end.

(** [s.replace(/r/g, f)] *)
Definition replaceAll (r : regex) (f : MatchResult -> string) (s : string)
    : string :=
  render f (scan r s).

(** [s.replace(/r/, f)]: only the first match is replaced. *)
Fixpoint renderFirst (f : MatchResult -> string) (segs : list Segment)
    : string :=
  match segs with
  | [] => EmptyString
  | Keep c :: segs' => String c (renderFirst f segs')
  | Hit m :: segs' => f m ++ render matched segs'
  end.

Definition replaceFirst (r : regex) (f : MatchResult -> string) (s : string)
    : string :=
  renderFirst f (scan r s).

End Regex.

(* ====================================================================== *)
(** ** wikilink.ts: the editor decoration for [[link]] syntax *)
(* ====================================================================== *)

Module Wikilink.
Import Regex.

Definition notBracketOrBar : ascii -> bool := noneOf ["]"%char; "|"%char].
Definition notBracket : ascii -> bool := noneOf ["]"%char].

(** [/\[\[([^\]|]+)(?:\|([^\]]+))?\]\]/g] *)
Definition wikilinkRegex : regex :=
  Lit "[["
    (Seq (Grp 1 (Plus notBracketOrBar))
    (Seq (Opt (Seq (Chr "|") (Grp 2 (Plus notBracket))))
         (Seq (Chr "]") (Chr "]")))).

(** The syntax tree of the editor state is produced by the Markdown parser
    of the editor library, which is not part of this repository; it is an
    input here.  A node has a type name, a span and children. *)
Unset Elimination Schemes.
Inductive SyntaxNode :=
| Node (name : string) (from to : nat) (children : list SyntaxNode).
Set Elimination Schemes.

Definition isCodeName (name : string) : bool :=
  JsString.includes name "CodeBlock" ||
  JsString.includes name "FencedCode" ||
  JsString.includes name "InlineCode".

(** [syntaxTree(state).iterate({from, to, enter})] with the [enter] callback
    of the source: a node is entered when its span touches [from, to]; on a
    code node the callback sets [inCodeBlock] and returns [false], so the
    children are not visited.  The result is the final [inCodeBlock]. *)
Fixpoint inCodeBlock (from to : nat) (n : SyntaxNode) : bool :=
  match n with
  | Node name f t children =>
      if ((f <=? to) && (from <=? t))%nat then
        if isCodeName name then true
        else existsb (inCodeBlock from to) children
      else false
  end.

Inductive Mark := wikilinkMark | wikilinkBracketMark.

Record Decoration := mkDeco {
  d_from : nat;
  d_to : nat;
  d_mark : Mark;
}.

Record EditorView := mkView {
  doc : string;
  visibleRanges : list (nat * nat);
  tree : SyntaxNode;
}.

(** The three [builder.add] calls for one match, or none inside code. *)
Definition decorateMatch (view : EditorView) (from : nat) (m : MatchResult)
    : list Decoration :=
  let start := (from + index m)%nat in
  let end_ := (start + String.length (matched m))%nat in
  if inCodeBlock start end_ (tree view) then []
  else [ {| d_from := start; d_to := start + 2; d_mark := wikilinkBracketMark |};
         {| d_from := start + 2; d_to := end_ - 2; d_mark := wikilinkMark |};
         {| d_from := end_ - 2; d_to := end_; d_mark := wikilinkBracketMark |} ]%nat.

Definition buildWikilinkDecorations (view : EditorView) : list Decoration :=
  flat_map
    (fun '(from, to) =>
       let text := JsString.slice (doc view) from to in
       flat_map (decorateMatch view from) (matchAll wikilinkRegex text))
    (visibleRanges view).

End Wikilink.

(* ====================================================================== *)
(** ** ReadingView.tsx: preprocessing of Markdown before rendering *)
(* ====================================================================== *)

Module ReadingView.
Import Regex.

Definition optCR (r : regex) : regex := Seq (Opt (Chr "013")) r.

(** One alternative of [frontmatterRegex], for the fence [---] or [+++]:
    [^fence\r?\n[\s\S]*?\r?\nfence\r?\n?] *)
Definition fenced (fence : string) : regex :=
  Seq Bos
    (Lit fence
      (optCR (Seq (Chr "010")
        (Seq (LazyStar anyChar)
          (optCR (Seq (Chr "010")
            (Lit fence (Seq (Opt (Chr "013")) (Opt (Chr "010")))))))))).

Definition frontmatterRegex : regex := Alt (fenced "---") (fenced "+++").

Definition stripFrontmatter (content : string) : string :=
  replaceFirst frontmatterRegex (fun _ => EmptyString) content.

(** [/\[\[([^\]|]+)\|([^\]]+)\]\]/g] *)
Definition aliasedWikilink : regex :=
  Lit "[["
    (Seq (Grp 1 (Plus Wikilink.notBracketOrBar))
    (Seq (Chr "|")
    (Seq (Grp 2 (Plus Wikilink.notBracket))
         (Seq (Chr "]") (Chr "]"))))).

(** [/\[\[([^\]]+)\]\]/g] *)
Definition plainWikilink : regex :=
  Lit "[[" (Seq (Grp 1 (Plus Wikilink.notBracket)) (Seq (Chr "]") (Chr "]"))).

Definition tagChar (c : ascii) : bool :=
  isWord c || Ascii.eqb c "/" || Ascii.eqb c "-".

(** [/(^|\s)#([\w/-]+)/g] *)
Definition tagRegex : regex :=
  Seq (Grp 1 (Alt Bos (Cls isSpace)))
    (Seq (Chr "#") (Grp 2 (Plus tagChar))).

(** The callout expression, flags [gm]: [^> \[!], group 1 [\w+], [\]],
    group 2 [[-+]?], [\s*], group 3 any run of characters other than line
    terminators, then [$]. *)
Definition calloutRegex : regex :=
  Seq Bol
    (Lit "> [!"
      (Seq (Grp 1 (Plus isWord))
      (Seq (Chr "]")
      (Seq (Grp 2 (Opt (Cls (oneOf ["-"%char; "+"%char]))))
      (Seq (Star isSpace)
      (Seq (Grp 3 (Star dot)) Eol)))))).

Import JsString.

Definition wikilinkSpan (target text : string) : string :=
  "<span class=" ++ dq ++ "wikilink" ++ dq ++ " data-target=" ++ dq ++
  target ++ dq ++ ">" ++ text ++ "</span>".

Definition tagSpan (m : MatchResult) : string :=
  group 1 m ++ "<span class=" ++ dq ++ "tag" ++ dq ++ " data-tag=" ++ dq ++
  group 2 m ++ dq ++ ">#" ++ group 2 m ++ "</span>".

Definition calloutDiv (m : MatchResult) : string :=
  let type := group 1 m in
  let fold := group 2 m in
  let title := group 3 m in
  let foldClass :=
    if String.eqb fold "-" then "collapsed"
    else if String.eqb fold "+" then "expanded" else EmptyString in
  "<div class=" ++ dq ++ "callout callout-" ++ toLowerCase type ++ " " ++
  foldClass ++ dq ++ "><div class=" ++ dq ++ "callout-title" ++ dq ++
  "><span class=" ++ dq ++ "callout-icon" ++ dq ++ "></span><span class=" ++
  dq ++ "callout-title-text" ++ dq ++ ">" ++
  (if String.eqb title EmptyString then type else title) ++
  "</span></div><div class=" ++ dq ++ "callout-content" ++ dq ++ ">".

Definition preprocessMarkdown (content : string) : string :=
  let contentWithoutFrontmatter := stripFrontmatter content in
  let s1 := replaceAll aliasedWikilink
              (fun m => wikilinkSpan (group 1 m) (group 2 m))
              contentWithoutFrontmatter in
  let s2 := replaceAll plainWikilink
              (fun m => wikilinkSpan (group 1 m) (group 1 m)) s1 in
  let s3 := replaceAll tagRegex tagSpan s2 in
  replaceAll calloutRegex calloutDiv s3.

End ReadingView.

(* ====================================================================== *)
(** ** The graph views: what they do with the transformed graph

    [GraphView] ([src/unnamed/part_009], lines 456-479) and [LocalGraph]
    ([src/components/graph/LocalGraph.tsx], lines 169-191) resolve the
    returned edges against a map of the returned nodes before they start the
    force simulation; the local view keeps the two end nodes only. *)
(* ====================================================================== *)

Module GraphView.
Import UseGraph.

(** [nodeMap]: the [forEach] that sets [node.id -> node]. *)
Definition nodeMap (ns : list D3Node) : gmap string D3Node :=
  fold_left (fun m n => <[d3_id n := n]> m) ns ∅.

Record GraphLink := mkGraphLink {
  l_source : D3Node;
  l_target : D3Node;
  l_edgeType : EdgeType;
  l_concept : option string;
}.

(** One edge resolved against [nodeMap]; [None] is the [null] that the
    following [filter] drops. *)
Definition resolveLink (m : gmap string D3Node) (e : D3Edge)
    : option GraphLink :=
  match m !! d3_source e, m !! d3_target e with
  | Some s, Some t =>
      Some {| l_source := s; l_target := t; l_edgeType := d3_edgeType e;
              l_concept := d3_concept e |}
  | _, _ => None
  end.

(** The [links] array handed to the force simulation. *)
Definition links (g : D3GraphData) : list GraphLink :=
  omap (resolveLink (nodeMap (d3_nodes g))) (d3_edges g).

End GraphView.

(* ====================================================================== *)
(** ** Sample data and the predicates the properties are stated with *)
(* ====================================================================== *)

Import UseGraph.

(** Sample vault: one note whose only link is an unresolved reference, and
    the concept node that stands for it. *)
Definition noteA : GraphNode :=
  {| id := "A.md"; label := "A"; path := "A.md"; connections := 1;
     nodeType := note |}.
Definition conceptC : GraphNode :=
  {| id := "concept:C"; label := "C"; path := EmptyString; connections := 1;
     nodeType := concept |}.
Definition edgeAC : GraphEdge :=
  {| source := "A.md"; target := "concept:C"; edgeType := conceptEdge;
     edgeConcept := Some "C" |}.
Definition conceptOnly : GraphData :=
  {| nodes := [noteA; conceptC]; edges := [edgeAC];
     concepts := [ {| name := "C"; count := 1; notes := ["A.md"] |} ] |}.

(** Sample vault with a resolved link: [A.md] links to [B.md]. *)
Definition noteB : GraphNode :=
  {| id := "B.md"; label := "B"; path := "B.md"; connections := 1;
     nodeType := note |}.
Definition edgeAB : GraphEdge :=
  {| source := "A.md"; target := "B.md"; edgeType := direct;
     edgeConcept := None |}.
Definition linked : GraphData :=
  {| nodes := [noteA; noteB]; edges := [edgeAB]; concepts := [] |}.

Definition noFilters : GraphFilterOptions :=
  {| folderPath := None; tag := None; showOrphans := None;
     showConceptLinks := None |}.

Definition withFlags (orphans conceptLinks : bool) : GraphFilterOptions :=
  {| folderPath := None; tag := None; showOrphans := Some orphans;
     showConceptLinks := Some conceptLinks |}.

Definition setTag (t : option string) (f : GraphFilterOptions)
    : GraphFilterOptions :=
  {| folderPath := folderPath f; tag := t; showOrphans := showOrphans f;
     showConceptLinks := showConceptLinks f |}.

(** The backend fields of a returned node. *)
Definition backendFields (n : D3Node) : GraphNode :=
  {| id := d3_id n; label := d3_label n; path := d3_path n;
     connections := d3_connections n; nodeType := d3_nodeType n |}.

(** Number of returned edges that touch the node with id [i]. *)
Definition touching (es : list D3Edge) (i : string) : Z :=
  Z.of_nat (length (List.filter
    (fun e => String.eqb (d3_source e) i || String.eqb (d3_target e) i) es)).

(** "Connection counts are re-derived from the filtered edge set." *)
Definition countsRederived (g : D3GraphData) : Prop :=
  Forall (fun n => d3_connections n = touching (d3_edges g) (d3_id n))
         (d3_nodes g).

(** Sample link lists and graphs for the fetcher traces. *)
Definition linkFromX : UseLinks.LinkInfo :=
  {| UseLinks.path := "X.md"; UseLinks.title := "X"; UseLinks.link_text := None |}.
Definition linkFromY : UseLinks.LinkInfo :=
  {| UseLinks.path := "Y.md"; UseLinks.title := "Y"; UseLinks.link_text := None |}.

(** The user opens [B.md], then [A.md], then goes back to [B.md] (served
    from the cache) before the answer for [A.md] arrives. *)
Definition linksBackAndForth (last : UseLinks.LinksEvent)
    : list UseLinks.LinksEvent :=
  [ UseLinks.Fetch (Some "B.md") 0;
    UseLinks.Resolved "B.md" [linkFromY] [] 10;
    UseLinks.Fetch (Some "A.md") 20;
    UseLinks.Fetch (Some "B.md") 30;
    last ].

Definition localBackAndForth (last : UseGraph.LocalEvent)
    : list UseGraph.LocalEvent :=
  [ UseGraph.Fetch (Some "B.md") 1 0;
    UseGraph.Resolved "B.md" 1 linked 10;
    UseGraph.Fetch (Some "A.md") 1 20;
    UseGraph.Fetch (Some "B.md") 1 30;
    last ].

(** Caches with one entry of each class, stamped at time 1000. *)
Definition sampleGraphCache : gmap string UseGraph.CacheEntry :=
  <["full" := {| UseGraph.data := linked; UseGraph.timestamp := 1000 |}]>
  (<["local:A.md:2" := {| UseGraph.data := conceptOnly;
                          UseGraph.timestamp := 1000 |}]> ∅).

Definition sampleLinksCache : gmap string UseLinks.CacheEntry :=
  <["A.md" := {| UseLinks.c_backlinks := [linkFromX];
                 UseLinks.c_outgoingLinks := [];
                 UseLinks.timestamp := 1000 |}]> ∅.

(** Longest prefix of characters in a class, what follows it, and the last
    character read; used to describe what a greedy repetition consumes. *)
Fixpoint takeWhile (p : ascii -> bool) (s : string) : string :=
  match s with
  | String c s' => if p c then String c (takeWhile p s') else EmptyString
  | EmptyString => EmptyString
  end.

Fixpoint dropWhile (p : ascii -> bool) (s : string) : string :=
  match s with
  | String c s' => if p c then dropWhile p s' else s
  | EmptyString => EmptyString
  end.

Fixpoint lastOr (pv : option ascii) (s : string) : option ascii :=
  match s with
  | String c s' => lastOr (Some c) s'
  | EmptyString => pv
  end.

Fixpoint allChars (p : ascii -> bool) (s : string) : bool :=
  match s with
  | String c s' => p c && allChars p s'
  | EmptyString => true
  end.

Definition startsWithClass (p : ascii -> bool) (s : string) : bool :=
  match s with
  | String c _ => p c
  | EmptyString => false
  end.

Definition LF : ascii := "010"%char.

Definition spansNewline (s : string) : bool :=
  negb (allChars (fun c => negb (Ascii.eqb c LF)) s).

(** The text continues with two closing brackets. *)
Definition closesHere (s : string) : bool :=
  match s with
  | String c1 (String c2 _) => Ascii.eqb c1 "]" && Ascii.eqb c2 "]"
  | _ => false
  end.

(** Direct description of one attempt of [wikilinkRegex] at a position:
    two opening brackets, the longest run of characters other than the
    closing bracket and the bar (not empty), then either two closing
    brackets, or a bar, the longest run of characters other than the closing
    bracket (not empty) and two closing brackets. *)
Definition wikilinkAt (s : string) (i : nat) : option Regex.MatchResult :=
  match s with
  | String c1 (String c2 body) =>
      if Ascii.eqb c1 "[" && Ascii.eqb c2 "[" then
        let t := takeWhile Wikilink.notBracketOrBar body in
        let r1 := dropWhile Wikilink.notBracketOrBar body in
        if String.eqb t EmptyString then None
        else
          match r1 with
          | String c3 r2 =>
              if Ascii.eqb c3 "|" then
                let a := takeWhile Wikilink.notBracket r2 in
                if negb (String.eqb a EmptyString) &&
                   closesHere (dropWhile Wikilink.notBracket r2)
                then Some {| Regex.index := i;
                             Regex.matched := "[[" ++ t ++ "|" ++ a ++ "]]";
                             Regex.groups := [(2%nat, a); (1%nat, t)] |}
                else None
              else if closesHere r1
                then Some {| Regex.index := i;
                             Regex.matched := "[[" ++ t ++ "]]";
                             Regex.groups := [(1%nat, t)] |}
                else None
          | EmptyString => None
          end
      else None
  | _ => None
  end.

(** Shape of a match of [wikilinkRegex]: group 1 (the target) is a
    non-empty run without closing bracket and bar; group 2 (the alias), when
    it took part, is a non-empty run without closing bracket; the match is
    the two in double brackets. *)
Definition wellShaped (m : Regex.MatchResult) : Prop :=
  ∃ t, Regex.lookupGroup 1 (Regex.groups m) = Some t ∧
       t ≠ EmptyString ∧ allChars Wikilink.notBracketOrBar t = true ∧
       match Regex.lookupGroup 2 (Regex.groups m) with
       | Some a => a ≠ EmptyString ∧ allChars Wikilink.notBracket a = true ∧
                   Regex.matched m = "[[" ++ t ++ "|" ++ a ++ "]]"
       | None => Regex.matched m = "[[" ++ t ++ "]]"
       end.

(** "No match has a newline inside its target or alias." *)
Definition neverSpansNewline (text : string) : Prop :=
  Forall (fun m => spansNewline (Regex.group 1 m) = false ∧
                   spansNewline (Regex.group 2 m) = false)
         (Regex.matchAll Wikilink.wikilinkRegex text).

(** A reference whose target runs over a line break. *)
Definition twoLineLink : string := "[[a" ++ String LF "b]]".

(** The match lies inside a code node of the syntax tree: some path from
    the root leads to a node with a code name, and every node on the path
    spans the match (as the spans of a parent and its children do). *)
Inductive inCodeNode (start end_ : nat) : Wikilink.SyntaxNode → Prop :=
| code_here name f t cs :
    Wikilink.isCodeName name = true → (f <= start)%nat → (end_ <= t)%nat →
    inCodeNode start end_ (Wikilink.Node name f t cs)
| code_below name f t cs c :
    (f <= start)%nat → (end_ <= t)%nat → In c cs → inCodeNode start end_ c →
    inCodeNode start end_ (Wikilink.Node name f t cs).

(** An inline code span and a fenced block that quote a reference, with
    the syntax trees the Markdown parser gives for them. *)
Definition inlineCodeDoc : string := "`[[a]]`".
Definition inlineCodeTree : Wikilink.SyntaxNode :=
  Wikilink.Node "Document" 0 7
    [Wikilink.Node "Paragraph" 0 7
       [Wikilink.Node "InlineCode" 0 7
          [Wikilink.Node "CodeMark" 0 1 []; Wikilink.Node "CodeMark" 6 7 []]]].

Definition fencedCodeDoc : string :=
  "```" ++ String LF ("[[a]]" ++ String LF "```").
Definition fencedCodeTree : Wikilink.SyntaxNode :=
  Wikilink.Node "Document" 0 13
    [Wikilink.Node "FencedCode" 0 13
       [Wikilink.Node "CodeMark" 0 3 []; Wikilink.Node "CodeText" 4 9 [];
        Wikilink.Node "CodeMark" 10 13 []]].

Definition plainDoc : string := "see [[a]]".
Definition plainTree : Wikilink.SyntaxNode :=
  Wikilink.Node "Document" 0 9 [Wikilink.Node "Paragraph" 0 9 []].

(** The backend fields of a returned edge. *)
Definition edgeFields (e : D3Edge) : GraphEdge :=
  {| source := d3_source e; target := d3_target e; edgeType := d3_edgeType e;
     edgeConcept := d3_concept e |}.

(** Both endpoints of an edge are ids of nodes of the list. *)
Definition endpointsIn (ns : list GraphNode) (e : GraphEdge) : bool :=
  bool_decide (source e ∈ idSet ns) && bool_decide (target e ∈ idSet ns).

Definition inFolder (p : string) (n : GraphNode) : bool :=
  JsString.startsWith (path n) p.

Definition folderFilter (p : string) : GraphFilterOptions :=
  {| folderPath := Some p; tag := None; showOrphans := None;
     showConceptLinks := None |}.

(** Sample vault with folders: two notes under [work/], one at the root,
    one concept. *)
Definition noteW1 : GraphNode :=
  {| id := "work/a.md"; label := "a"; path := "work/a.md"; connections := 2;
     nodeType := note |}.
Definition noteW2 : GraphNode :=
  {| id := "work/b.md"; label := "b"; path := "work/b.md"; connections := 1;
     nodeType := note |}.
Definition noteR : GraphNode :=
  {| id := "r.md"; label := "r"; path := "r.md"; connections := 0;
     nodeType := note |}.
Definition conceptK : GraphNode :=
  {| id := "concept:K"; label := "K"; path := EmptyString; connections := 1;
     nodeType := concept |}.
Definition foldered : GraphData :=
  {| nodes := [noteW1; noteW2; noteR; conceptK];
     edges := [ {| source := "work/a.md"; target := "work/b.md";
                   edgeType := direct; edgeConcept := None |};
                {| source := "work/a.md"; target := "concept:K";
                   edgeType := conceptEdge; edgeConcept := Some "K" |} ];
     concepts := [ {| name := "K"; count := 1; notes := ["work/a.md"] |} ] |}.

Definition notSlash (c : ascii) : bool := negb (Ascii.eqb c "/").

(** Ascending in the order [sort()] uses. *)
Definition ascending (l : list string) : Prop :=
  Sorted (fun a b => String.leb a b = true) l.

Definition notColon (c : ascii) : bool := negb (Ascii.eqb c ":").

(** The text after its first [n] characters. *)
Fixpoint dropString (n : nat) (s : string) : string :=
  match n, s with
  | O, _ => s
  | S n', String _ s' => dropString n' s'
  | S _, EmptyString => EmptyString
  end.

(** The matcher moved from [st] to [st1] by reading the text [w]. *)
Definition advancedBy (w : string) (st st1 : Regex.mstate) : Prop :=
  Regex.rest st = (w ++ Regex.rest st1)%string ∧
  Regex.pos st1 = (Regex.pos st + String.length w)%nat.

(** Characters that none of the rewrites of [preprocessMarkdown] can start
    from: no opening bracket and no hash mark. *)
Definition plainChar : ascii → bool := Regex.noneOf ["["%char; "#"%char].

Definition fenceChar : ascii → bool := Regex.oneOf ["-"%char; "+"%char].

(** The match is the text found at its index. *)
Definition locatedIn (text : string) (m : Regex.MatchResult) : Prop :=
  String.substring (Regex.index m) (String.length (Regex.matched m)) text
  = Regex.matched m ∧
  (Regex.index m + String.length (Regex.matched m) <= String.length text)%nat.

(** [b] starts after [a] and not before [a] ends. *)
Definition before (a b : Regex.MatchResult) : Prop :=
  (Regex.index a + String.length (Regex.matched a) <= Regex.index b)%nat ∧
  (Regex.index a < Regex.index b)%nat.

Definition hits (segs : list Regex.Segment) : list Regex.MatchResult :=
  omap (fun g => match g with Regex.Hit m => Some m | Regex.Keep _ => None end)
       segs.

(** Visible ranges as the editor reports them: each is a proper interval and
    they follow one another without overlap, starting at or after [lo]. *)
Fixpoint rangesFrom (lo : nat) (rs : list (nat * nat)) : Prop :=
  match rs with
  | [] => True
  | (f, t) :: rs' => (lo <= f)%nat ∧ (f <= t)%nat ∧ rangesFrom t rs'
  end.

(** Decorations in the order a range-set builder accepts: every one is a
    non-empty interval inside [[lo, hi]] and begins where or after the one
    before it ends. *)
Definition chain (lo hi : nat) (ds : list Wikilink.Decoration) : Prop :=
  Sorted (fun a b => (Wikilink.d_to a <= Wikilink.d_from b)%nat) ds ∧
  Forall (fun d => (lo <= Wikilink.d_from d)%nat ∧
                   (Wikilink.d_from d < Wikilink.d_to d)%nat ∧
                   (Wikilink.d_to d <= hi)%nat) ds.

Definition twoRangeView : Wikilink.EditorView :=
  {| Wikilink.doc := "[[a]] `[[b]]` [[c|d]]";
     Wikilink.visibleRanges := [(0, 5)%nat; (14, 21)%nat];
     Wikilink.tree :=
       Wikilink.Node "Document" 0 21
         [Wikilink.Node "Paragraph" 0 21
            [Wikilink.Node "InlineCode" 6 13 []]] |}.

(* ====================================================================== *)
(** * Properties *)
(* ====================================================================== *)

(** ** The D3 transform *)

Example getFolderPath_nested : getFolderPath "notes/daily/x.md" = "notes/daily".
Proof. reflexivity. Qed.

Example getFolderPath_root : getFolderPath "x.md" = "/".
Proof. reflexivity. Qed.

Example getFolderPath_leading_slash : getFolderPath "/x.md" = "/".
Proof. reflexivity. Qed.

Example transform_linked_keeps_edge :
  d3_edges (transformToD3 linked (withFlags false false) None)
  = [toD3Edge edgeAB].
Proof. vm_compute. reflexivity. Qed.

Lemma connectedIdsOf_acc (es : list GraphEdge) (acc : gset string) (x : string) :
  x ∈ fold_left (fun a e => a ∪ {[source e]} ∪ {[target e]}) es acc ↔
  x ∈ acc ∨ ∃ e, In e es ∧ (x = source e ∨ x = target e).
Proof.
  revert acc. induction es as [|e es IH]; intros acc; simpl.
  - split; [auto | intros [H | (e & [] & _)]; exact H].
  - rewrite IH. rewrite !elem_of_union, !elem_of_singleton. split.
    + intros [[[H | H] | H] | (e' & Hin & H)]; eauto 7.
    + intros [H | (e' & [<- | Hin] & [H | H])]; eauto 7.
Qed.

Lemma connectedIdsOf_spec (es : list GraphEdge) (x : string) :
  x ∈ connectedIdsOf es ↔ ∃ e, In e es ∧ (x = source e ∨ x = target e).
Proof.
  unfold connectedIdsOf. rewrite connectedIdsOf_acc. split.
  - intros [H | H]; [set_solver | exact H].
  - auto.
Qed.

Lemma idSet_spec (ns : list GraphNode) (x : string) :
  x ∈ idSet ns ↔ ∃ n, In n ns ∧ id n = x.
Proof.
  unfold idSet. rewrite elem_of_list_to_set, list_elem_of_In, in_map_iff.
  split; intros (n & H1 & H2); exists n; auto.
Qed.

Lemma edgePass_endpoints (valid : gset string) (sc : bool) (e : GraphEdge) :
  edgePass valid sc e = true → source e ∈ valid ∧ target e ∈ valid.
Proof.
  unfold edgePass. intros H.
  destruct (bool_decide (source e ∈ valid)) eqn:Hs;
    destruct (bool_decide (target e ∈ valid)) eqn:Ht; simpl in H; try discriminate.
  split; eapply bool_decide_eq_true; eassumption.
Qed.

(** A node of the first pass that is an endpoint of a kept edge survives the
    second orphan pass. *)
Lemma endpoint_survives (data : GraphData) (filters : GraphFilterOptions)
    (e : GraphEdge) (x : string) :
  In e (filteredEdges data filters) →
  x = source e ∨ x = target e →
  x ∈ idSet (filteredNodes0 data filters) →
  ∃ n, In n (filteredNodes data filters) ∧ id n = x.
Proof.
  intros He Hx Hv. apply idSet_spec in Hv as (n & Hn & Hid).
  exists n. split; [|exact Hid].
  unfold filteredNodes. destruct (default true (showOrphans filters)); [exact Hn|].
  apply filter_In. split; [exact Hn|].
  apply orb_true_iff. left. apply bool_decide_eq_true.
  apply connectedIdsOf_spec. exists e. rewrite Hid. auto.
Qed.

(** C9.  Every edge returned by [transformToD3] has its source id and its
    target id among the ids of the returned nodes: filtering never leaves a
    dangling edge. *)
Theorem transformToD3_no_dangling_edge
    (data : GraphData) (filters : GraphFilterOptions) (centerPath : option string)
    (e : D3Edge) :
  In e (d3_edges (transformToD3 data filters centerPath)) →
  In (d3_source e) (map d3_id (d3_nodes (transformToD3 data filters centerPath))) ∧
  In (d3_target e) (map d3_id (d3_nodes (transformToD3 data filters centerPath))).
Proof.
  simpl. intros He. apply in_map_iff in He as (e0 & <- & He0).
  pose proof He0 as Hf. unfold filteredEdges in Hf.
  apply filter_In in Hf as [_ Hpass].
  apply edgePass_endpoints in Hpass as [Hs Ht].
  rewrite map_map. simpl.
  split.
  - destruct (endpoint_survives data filters e0 (source e0) He0 (or_introl eq_refl) Hs)
      as (n & Hn & Hid).
    apply in_map_iff. exists n. auto.
  - destruct (endpoint_survives data filters e0 (target e0) He0 (or_intror eq_refl) Ht)
      as (n & Hn & Hid).
    apply in_map_iff. exists n. auto.
Qed.

Lemma transformToD3_no_dangling_edge_witness :
  In "A.md" (map d3_id (d3_nodes (transformToD3 linked (withFlags false false) None))) ∧
  In "B.md" (map d3_id (d3_nodes (transformToD3 linked (withFlags false false) None))).
Proof.
  apply (transformToD3_no_dangling_edge linked (withFlags false false) None
           (toD3Edge edgeAB)).
  vm_compute. left. reflexivity.
Defined.

(** [connections] is at most the maximum used for scaling, which is at
    least 1. *)
Lemma maxWith1_ge_1 (xs : list Z) : 1 <= maxWith1 xs.
Proof. induction xs as [|x xs IH]; simpl; lia. Qed.

Lemma maxWith1_upper (xs : list Z) (x : Z) : In x xs → x <= maxWith1 xs.
Proof.
  induction xs as [|y xs IH]; simpl; [tauto|].
  intros [-> | H]; [lia | specialize (IH H); lia].
Qed.

Lemma filteredNodes0_incl (data : GraphData) (filters : GraphFilterOptions)
    (n : GraphNode) :
  In n (filteredNodes0 data filters) → In n (nodes data).
Proof. unfold filteredNodes0. intros H. apply filter_In in H. tauto. Qed.

Lemma filteredNodes_incl0 (data : GraphData) (filters : GraphFilterOptions)
    (n : GraphNode) :
  In n (filteredNodes data filters) → In n (filteredNodes0 data filters).
Proof.
  unfold filteredNodes. destruct (default true (showOrphans filters)); [tauto|].
  intros H. apply filter_In in H. tauto.
Qed.

Lemma filteredNodes_incl (data : GraphData) (filters : GraphFilterOptions)
    (n : GraphNode) :
  In n (filteredNodes data filters) → In n (nodes data).
Proof. intros H. eauto using filteredNodes0_incl, filteredNodes_incl0. Qed.

(** The second orphan pass keeps every node with a positive count, and the
    first pass has already dropped the zero counts: on backend data (counts
    are never negative) the second pass removes nothing. *)
Lemma second_orphan_pass_removes_nothing
    (data : GraphData) (filters : GraphFilterOptions) :
  (∀ n, In n (nodes data) → 0 <= connections n) →
  filteredNodes data filters = filteredNodes0 data filters.
Proof.
  intros Hnn. unfold filteredNodes.
  destruct (default true (showOrphans filters)) eqn:Hso; [reflexivity|].
  apply forallb_filter_id. apply forallb_forall. intros n Hn.
  pose proof (filteredNodes0_incl _ _ _ Hn) as Hin.
  unfold filteredNodes0 in Hn. apply filter_In in Hn as [_ Hp].
  unfold nodePass in Hp. rewrite Hso in Hp. simpl in Hp.
  destruct (JsString.truthy (folderPath filters) &&
            negb (JsString.startsWith (path n) (default EmptyString (folderPath filters))));
    [discriminate|].
  destruct (connections n =? 0) eqn:Hz; [discriminate|].
  apply orb_true_iff. right. apply Z.ltb_lt.
  apply Z.eqb_neq in Hz. specialize (Hnn n Hin). lia.
Qed.

(** What the second pass can remove at all: a node without a kept edge whose
    backend count is not positive. *)
Lemma second_orphan_pass_removed
    (data : GraphData) (filters : GraphFilterOptions) (n : GraphNode) :
  In n (filteredNodes0 data filters) →
  ¬ In n (filteredNodes data filters) →
  (id n ∉ connectedIdsOf (filteredEdges data filters)) ∧ (connections n <= 0).
Proof.
  intros Hn Hout. unfold filteredNodes in Hout.
  destruct (default true (showOrphans filters)); [contradiction|].
  rewrite filter_In in Hout.
  destruct (bool_decide (id n ∈ connectedIdsOf (filteredEdges data filters))) eqn:Hc.
  { exfalso. apply Hout. split; [exact Hn | reflexivity]. }
  destruct (Z.ltb_spec 0 (connections n)) as [Hpos | Hle].
  { exfalso. apply Hout. split; [exact Hn | reflexivity]. }
  split; [|exact Hle]. apply bool_decide_eq_false in Hc. exact Hc.
Qed.

(** C1 (the orphan pass on the code).  With [showConceptLinks = false] and
    [showOrphans = false] the note whose only edge is a concept edge is
    still returned, with no edge left: the second orphan pass keeps it
    because its backend count is positive. *)
Theorem concept_only_note_survives_orphan_pruning :
  map d3_id (d3_nodes (transformToD3 conceptOnly (withFlags false false) None))
  = ["A.md"; "concept:C"] ∧
  d3_edges (transformToD3 conceptOnly (withFlags false false) None) = [].
Proof. split; vm_compute; reflexivity. Qed.

(** The other half of the filter-ordering property does hold: with
    [showOrphans = true] the note stays, with zero edges. *)
Example concept_only_note_stays_when_orphans_shown :
  map d3_id (d3_nodes (transformToD3 conceptOnly (withFlags true false) None))
  = ["A.md"; "concept:C"] ∧
  d3_edges (transformToD3 conceptOnly (withFlags true false) None) = [].
Proof. split; vm_compute; reflexivity. Qed.

(** C2 as stated fails: with concept links hidden the note keeps its
    backend count 1 although no returned edge touches it. *)
Lemma counts_not_rederived :
  ¬ countsRederived (transformToD3 conceptOnly (withFlags true false) None).
Proof.
  intros H. apply Forall_inv in H. vm_compute in H. discriminate H.
Qed.

(** C2 (amended).  Every returned node is an input node with its backend
    fields, the connection count among them, copied unchanged. *)
Theorem transformToD3_copies_backend_counts
    (data : GraphData) (filters : GraphFilterOptions) (centerPath : option string) :
  Forall (fun n => In (backendFields n) (nodes data))
         (d3_nodes (transformToD3 data filters centerPath)).
Proof.
  simpl. apply Forall_forall. intros n Hn.
  apply list_elem_of_In in Hn.
  apply in_map_iff in Hn as (m & <- & Hm).
  apply filteredNodes_incl in Hm. destruct m. exact Hm.
Qed.

Lemma transformToD3_tag_irrelevant
    (data : GraphData) (filters : GraphFilterOptions) (centerPath : option string)
    (t : option string) :
  transformToD3 data (setTag t filters) centerPath
  = transformToD3 data filters centerPath.
Proof. reflexivity. Qed.

(** C3 (the tag filter on the code).  [transformToD3] never reads the [tag]
    field: with the filter set to [project] both notes of the sample vault
    are returned, and no returned node carries any tag data. *)
Theorem tag_filter_is_not_applied :
  map d3_id (d3_nodes (transformToD3 linked (setTag (Some "project") noFilters) None))
  = ["A.md"; "B.md"] ∧
  Forall (fun n => tags n = None)
         (d3_nodes (transformToD3 linked (setTag (Some "project") noFilters) None)) ∧
  transformToD3 linked (setTag (Some "project") noFilters) None
  = transformToD3 linked noFilters None.
Proof.
  split; [vm_compute; reflexivity|]. split; [|reflexivity].
  simpl. repeat constructor.
Qed.

(** *** Node sizes *)

Lemma calculateNodeSize_pos (c : Z) (p : positive) :
  (calculateNodeSize c (Zpos p) == 4 + (c # p) * 16)%Q.
Proof.
  unfold calculateNodeSize. simpl.
  unfold Qeq, Qdiv, Qinv, Qmult, Qplus, Qminus, Qopp, inject_Z. simpl. lia.
Qed.

Lemma calculateNodeSize_range (c m : Z) :
  0 <= c <= m → (4 <= calculateNodeSize c m)%Q ∧ (calculateNodeSize c m <= 20)%Q.
Proof.
  intros [Hc Hm]. destruct m as [|p|p]; [| |lia].
  - unfold calculateNodeSize. simpl. split; unfold Qle; simpl; lia.
  - rewrite calculateNodeSize_pos.
    unfold Qle, Qmult, Qplus. simpl. split; nia.
Qed.

Lemma calculateNodeSize_mono (c1 c2 m : Z) :
  c1 <= c2 → 0 <= m → (calculateNodeSize c1 m <= calculateNodeSize c2 m)%Q.
Proof.
  intros Hc Hm. destruct m as [|p|p]; [| |lia].
  - unfold calculateNodeSize. simpl. unfold Qle. simpl. lia.
  - rewrite !calculateNodeSize_pos.
    unfold Qle, Qmult, Qplus. simpl. nia.
Qed.

Lemma transformToD3_size_range
    (data : GraphData) (filters : GraphFilterOptions) (centerPath : option string)
    (n : D3Node) :
  In n (d3_nodes (transformToD3 data filters centerPath)) →
  0 <= d3_connections n →
  (4 <= size n)%Q ∧ (size n <= 20)%Q.
Proof.
  simpl. intros Hn Hc. apply in_map_iff in Hn as (m & <- & Hm).
  simpl in *. apply calculateNodeSize_range. split; [exact Hc|].
  apply maxWith1_upper. apply in_map. eapply filteredNodes_incl; eauto.
Qed.

(** C10.  For integers [0 <= c' <= c <= m] the size [calculateNodeSize c m]
    lies in [[4, 20]] and is at least [calculateNodeSize c' m]; the size is
    [4] whenever the maximum is [0]; and every node returned by
    [transformToD3] with a non-negative count has a size in [[4, 20]] (its
    count never exceeds the maximum the transform scales by). *)
Theorem calculateNodeSize_bounds (c' c m : Z) :
  0 <= c' → c' <= c → c <= m →
  ((4 <= calculateNodeSize c m)%Q ∧ (calculateNodeSize c m <= 20)%Q) ∧
  (∀ x, calculateNodeSize x 0 = 4%Q) ∧
  (calculateNodeSize c' m <= calculateNodeSize c m)%Q ∧
  (∀ data filters centerPath n,
     In n (d3_nodes (transformToD3 data filters centerPath)) →
     0 <= d3_connections n →
     (4 <= size n)%Q ∧ (size n <= 20)%Q).
Proof.
  intros H0 H1 H2. split; [apply calculateNodeSize_range; lia|].
  split; [intros x; reflexivity|].
  split; [apply calculateNodeSize_mono; lia|].
  apply transformToD3_size_range.
Qed.

Lemma calculateNodeSize_bounds_witness :
  ((4 <= calculateNodeSize 2 4)%Q ∧ (calculateNodeSize 2 4 <= 20)%Q) ∧
  (calculateNodeSize 1 4 <= calculateNodeSize 2 4)%Q.
Proof.
  destruct (calculateNodeSize_bounds 1 2 4) as (Hr & _ & Hm & _); [lia | lia | lia |].
  split; [exact Hr | exact Hm].
Defined.

Example calculateNodeSize_half : (calculateNodeSize 2 4 == 12)%Q.
Proof. reflexivity. Qed.

Example calculateNodeSize_zero_max : calculateNodeSize 7 0 = 4%Q.
Proof. reflexivity. Qed.

(** ** The result caches *)

Example cacheKey_sample : cacheKey "notes/A.md" 2 = "local:notes/A.md:2".
Proof. reflexivity. Qed.

Lemma truthy_Some (p : string) : p ≠ EmptyString → JsString.truthy (Some p) = true.
Proof.
  intros Hp. simpl. destruct (String.eqb p EmptyString) eqn:E; [|reflexivity].
  apply String.eqb_eq in E. contradiction.
Qed.

Lemma fetchGraph_start_fresh now gc h e :
  fetchInProgressRef h = false → gc !! "full" = Some e →
  now - UseGraph.timestamp e < 60000 →
  snd (fetchGraph_start now gc h) = CacheHit ∧
  rawData (fst (fetchGraph_start now gc h)) = Some (data e).
Proof.
  intros Hp He Hf. unfold fetchGraph_start. rewrite Hp, He.
  unfold UseGraph.CACHE_TTL.
  destruct (Z.ltb_spec (now - UseGraph.timestamp e) 60000); [auto | lia].
Qed.

Lemma fetchGraph_start_expired now gc h e :
  fetchInProgressRef h = false → gc !! "full" = Some e →
  60000 <= now - UseGraph.timestamp e →
  snd (fetchGraph_start now gc h) = Invoked.
Proof.
  intros Hp He Hf. unfold fetchGraph_start. rewrite Hp, He.
  unfold UseGraph.CACHE_TTL.
  destruct (Z.ltb_spec (now - UseGraph.timestamp e) 60000); [lia | auto].
Qed.

Lemma fetchLocalGraph_start_fresh center depth now gc h e :
  center ≠ EmptyString → gc !! cacheKey center depth = Some e →
  now - UseGraph.timestamp e < 60000 →
  snd (fetchLocalGraph_start (Some center) depth now gc h) = CacheHit ∧
  l_rawData (fst (fetchLocalGraph_start (Some center) depth now gc h))
  = Some (data e).
Proof.
  intros Hc He Hf. unfold fetchLocalGraph_start.
  rewrite (truthy_Some _ Hc). simpl. rewrite He.
  unfold UseGraph.CACHE_TTL.
  destruct (Z.ltb_spec (now - UseGraph.timestamp e) 60000); [auto | lia].
Qed.

Lemma fetchLocalGraph_start_expired center depth now gc h e :
  center ≠ EmptyString → gc !! cacheKey center depth = Some e →
  60000 <= now - UseGraph.timestamp e →
  snd (fetchLocalGraph_start (Some center) depth now gc h) = Invoked.
Proof.
  intros Hc He Hf. unfold fetchLocalGraph_start.
  rewrite (truthy_Some _ Hc). simpl. rewrite He.
  unfold UseGraph.CACHE_TTL.
  destruct (Z.ltb_spec (now - UseGraph.timestamp e) 60000); [lia | auto].
Qed.

Lemma fetchLinks_start_fresh p now lc h e :
  p ≠ EmptyString → lc !! p = Some e →
  now - UseLinks.timestamp e < 30000 →
  snd (UseLinks.fetchLinks_start (Some p) now lc h) = CacheHit ∧
  UseLinks.backlinks (fst (UseLinks.fetchLinks_start (Some p) now lc h))
  = UseLinks.c_backlinks e ∧
  UseLinks.outgoingLinks (fst (UseLinks.fetchLinks_start (Some p) now lc h))
  = UseLinks.c_outgoingLinks e.
Proof.
  intros Hc He Hf. unfold UseLinks.fetchLinks_start.
  rewrite (truthy_Some _ Hc). simpl. rewrite He.
  unfold UseLinks.CACHE_TTL.
  destruct (Z.ltb_spec (now - UseLinks.timestamp e) 30000); [auto | lia].
Qed.

Lemma fetchLinks_start_expired p now lc h e :
  p ≠ EmptyString → lc !! p = Some e →
  30000 <= now - UseLinks.timestamp e →
  snd (UseLinks.fetchLinks_start (Some p) now lc h) = Invoked.
Proof.
  intros Hc He Hf. unfold UseLinks.fetchLinks_start.
  rewrite (truthy_Some _ Hc). simpl. rewrite He.
  unfold UseLinks.CACHE_TTL.
  destruct (Z.ltb_spec (now - UseLinks.timestamp e) 30000); [lia | auto].
Qed.

(** C4.  At a lookup that finds an entry, the entry is served without a
    backend call exactly when [now - timestamp] is below the class TTL, and
    otherwise the backend command is issued: 60000 ms for the full graph
    and for a local graph keyed by center and depth, 30000 ms for the link
    lists keyed by path.  (The full-graph lookup takes place when no fetch
    of the hook instance is in progress.) *)
Theorem cache_entry_served_iff_within_ttl
    (now : Z)
    (graphCache : gmap string UseGraph.CacheEntry)
    (linksCache : gmap string UseLinks.CacheEntry)
    (gh : GraphHook) (lh : LocalHook) (kh : UseLinks.LinksHook)
    (center path : string) (depth : Z)
    (eFull eLocal : UseGraph.CacheEntry) (eLinks : UseLinks.CacheEntry) :
  fetchInProgressRef gh = false →
  center ≠ EmptyString → path ≠ EmptyString →
  graphCache !! "full" = Some eFull →
  graphCache !! cacheKey center depth = Some eLocal →
  linksCache !! path = Some eLinks →
  (* full graph *)
  ((snd (fetchGraph_start now graphCache gh) = CacheHit ∧
    rawData (fst (fetchGraph_start now graphCache gh)) = Some (data eFull))
   ↔ now - UseGraph.timestamp eFull < 60000) ∧
  (snd (fetchGraph_start now graphCache gh) = Invoked
   ↔ ¬ now - UseGraph.timestamp eFull < 60000) ∧
  (* local graph *)
  ((snd (fetchLocalGraph_start (Some center) depth now graphCache lh) = CacheHit ∧
    l_rawData (fst (fetchLocalGraph_start (Some center) depth now graphCache lh))
    = Some (data eLocal))
   ↔ now - UseGraph.timestamp eLocal < 60000) ∧
  (snd (fetchLocalGraph_start (Some center) depth now graphCache lh) = Invoked
   ↔ ¬ now - UseGraph.timestamp eLocal < 60000) ∧
  (* link lists *)
  ((snd (UseLinks.fetchLinks_start (Some path) now linksCache kh) = CacheHit ∧
    UseLinks.backlinks (fst (UseLinks.fetchLinks_start (Some path) now linksCache kh))
    = UseLinks.c_backlinks eLinks ∧
    UseLinks.outgoingLinks (fst (UseLinks.fetchLinks_start (Some path) now linksCache kh))
    = UseLinks.c_outgoingLinks eLinks)
   ↔ now - UseLinks.timestamp eLinks < 30000) ∧
  (snd (UseLinks.fetchLinks_start (Some path) now linksCache kh) = Invoked
   ↔ ¬ now - UseLinks.timestamp eLinks < 30000).
Proof.
  intros Hp Hc Hpath HeF HeL HeK.
  assert (Hdec : ∀ a b : Z, a < b ∨ b <= a) by (intros; lia).
  repeat split.
  - intros [Ho _]. destruct (Hdec (now - UseGraph.timestamp eFull) 60000) as [H|H];
      [exact H|]. rewrite (fetchGraph_start_expired _ _ _ _ Hp HeF H) in Ho.
    discriminate.
  - eapply fetchGraph_start_fresh; eauto.
  - eapply fetchGraph_start_fresh; eauto.
  - intros Ho Hf. destruct (fetchGraph_start_fresh _ _ _ _ Hp HeF Hf) as [Ho' _].
    rewrite Ho in Ho'. discriminate.
  - intros Hn. eapply fetchGraph_start_expired; eauto. lia.
  - intros [Ho _]. destruct (Hdec (now - UseGraph.timestamp eLocal) 60000) as [H|H];
      [exact H|]. rewrite (fetchLocalGraph_start_expired _ _ _ _ lh _ Hc HeL H) in Ho.
    discriminate.
  - eapply fetchLocalGraph_start_fresh; eauto.
  - eapply fetchLocalGraph_start_fresh; eauto.
  - intros Ho Hf.
    destruct (fetchLocalGraph_start_fresh _ _ _ _ lh _ Hc HeL Hf) as [Ho' _].
    rewrite Ho in Ho'. discriminate.
  - intros Hn. eapply fetchLocalGraph_start_expired; eauto. lia.
  - intros [Ho _]. destruct (Hdec (now - UseLinks.timestamp eLinks) 30000) as [H|H];
      [exact H|]. rewrite (fetchLinks_start_expired _ _ _ kh _ Hpath HeK H) in Ho.
    discriminate.
  - eapply fetchLinks_start_fresh; eauto.
  - eapply fetchLinks_start_fresh; eauto.
  - eapply fetchLinks_start_fresh; eauto.
  - intros Ho Hf.
    destruct (fetchLinks_start_fresh _ _ _ kh _ Hpath HeK Hf) as [Ho' _].
    rewrite Ho in Ho'. discriminate.
  - intros Hn. eapply fetchLinks_start_expired; eauto. lia.
Qed.

Lemma cache_entry_served_iff_within_ttl_witness :
  snd (fetchGraph_start 40000 sampleGraphCache initGraphHook) = CacheHit ∧
  snd (fetchLocalGraph_start (Some "A.md") 2 40000 sampleGraphCache initLocalHook)
  = CacheHit ∧
  snd (UseLinks.fetchLinks_start (Some "A.md") 40000 sampleLinksCache
         UseLinks.initLinksHook) = Invoked.
Proof.
  destruct (cache_entry_served_iff_within_ttl 40000
              sampleGraphCache sampleLinksCache
              initGraphHook initLocalHook UseLinks.initLinksHook
              "A.md" "A.md" 2
              {| data := linked; UseGraph.timestamp := 1000 |}
              {| data := conceptOnly; UseGraph.timestamp := 1000 |}
              {| UseLinks.c_backlinks := [linkFromX];
                 UseLinks.c_outgoingLinks := [];
                 UseLinks.timestamp := 1000 |})
    as (Hfull & _ & Hlocal & _ & _ & Hlinks).
  - reflexivity.
  - discriminate.
  - discriminate.
  - vm_compute. reflexivity.
  - vm_compute. reflexivity.
  - vm_compute. reflexivity.
  - split; [apply Hfull; simpl; lia|].
    split; [apply Hlocal; simpl; lia|].
    apply Hlinks. simpl. lia.
Defined.

Example full_graph_entry_expires_at_ttl :
  snd (fetchGraph_start 60999 sampleGraphCache initGraphHook) = CacheHit ∧
  snd (fetchGraph_start 61000 sampleGraphCache initGraphHook) = Invoked.
Proof. split; vm_compute; reflexivity. Qed.

Example links_entry_expires_at_ttl :
  snd (UseLinks.fetchLinks_start (Some "A.md") 30999 sampleLinksCache
         UseLinks.initLinksHook) = CacheHit ∧
  snd (UseLinks.fetchLinks_start (Some "A.md") 31000 sampleLinksCache
         UseLinks.initLinksHook) = Invoked.
Proof. split; vm_compute; reflexivity. Qed.

(** Explicit invalidation: after the entry is deleted the next call asks the
    backend again, whatever the clock says. *)
Lemma fetchLinks_after_clear (p : string) (now : Z)
    (lc : gmap string UseLinks.CacheEntry) (h : UseLinks.LinksHook) :
  p ≠ EmptyString →
  snd (UseLinks.fetchLinks_start (Some p) now
         (UseLinks.clearLinksCache (Some p) lc) h) = Invoked.
Proof.
  intros Hp. unfold UseLinks.fetchLinks_start, UseLinks.clearLinksCache.
  rewrite (truthy_Some _ Hp). simpl. rewrite lookup_delete_eq. reflexivity.
Qed.

Lemma fetchGraph_after_clear (now : Z) (key : option string)
    (gc : gmap string UseGraph.CacheEntry) (h : GraphHook) :
  key = None ∨ key = Some "full" →
  fetchInProgressRef h = false →
  snd (fetchGraph_start now (clearGraphCache key gc) h) = Invoked.
Proof.
  intros Hk Hp. unfold fetchGraph_start, clearGraphCache. rewrite Hp.
  destruct Hk as [-> | ->]; simpl.
  - rewrite lookup_empty. reflexivity.
  - rewrite lookup_delete_eq. reflexivity.
Qed.

(** ** Stale responses *)

(** What the guard of the code does ensure: a response is committed only
    when the ref still holds the path it answers. *)
Lemma fetchLinks_resolve_guard p bl ol now lc h :
  UseLinks.currentPathRef h ≠ Some p →
  UseLinks.fetchLinks_resolve p bl ol now lc h = (lc, h).
Proof.
  intros Hne. unfold UseLinks.fetchLinks_resolve, UseLinks.isCurrent.
  rewrite bool_decide_eq_false_2 by exact Hne. reflexivity.
Qed.

Lemma fetchLocalGraph_resolve_guard p depth d now gc h :
  currentPathRef h ≠ Some p →
  fetchLocalGraph_resolve p depth d now gc h = (gc, h).
Proof.
  intros Hne. unfold fetchLocalGraph_resolve, isCurrent.
  rewrite bool_decide_eq_false_2 by exact Hne. reflexivity.
Qed.

(** The ref is written on a cache miss only: a call that is served from the
    cache leaves it on the path of the earlier request. *)
Example cache_hit_leaves_ref_behind :
  UseLinks.selected
    (UseLinks.linksRun (firstn 4 (linksBackAndForth (UseLinks.Fetch None 0))))
  = Some "B.md" ∧
  UseLinks.currentPathRef (UseLinks.hook
    (UseLinks.linksRun (firstn 4 (linksBackAndForth (UseLinks.Fetch None 0)))))
  = Some "A.md".
Proof. split; vm_compute; reflexivity. Qed.

(** C7 (stale responses on the code).  The user goes from [A.md] back to
    [B.md], which is served from the cache; the answer for [A.md] then
    arrives and is committed although [B.md] is the path of interest: its
    data replaces what is shown, and likewise its error and its
    loading-state update.  The same holds for the local graph. *)
Theorem stale_response_is_committed :
  (let w := UseLinks.linksRun
              (linksBackAndForth (UseLinks.Resolved "A.md" [linkFromX] [] 40)) in
   UseLinks.selected w = Some "B.md" ∧
   UseLinks.backlinks (UseLinks.hook w) = [linkFromX] ∧
   UseLinks.isLoading (UseLinks.hook w) = false) ∧
  (let w := UseLinks.linksRun
              (linksBackAndForth (UseLinks.Rejected "A.md" (Some "no such note"))) in
   UseLinks.selected w = Some "B.md" ∧
   UseLinks.backlinks (UseLinks.hook w) = [linkFromY] ∧
   UseLinks.error (UseLinks.hook w) = Some "no such note") ∧
  (let w := localRun (localBackAndForth (Resolved "A.md" 1 conceptOnly 40)) in
   selected w = Some "B.md" ∧
   l_rawData (hook w) = Some conceptOnly) ∧
  (let w := localRun (localBackAndForth (Rejected "A.md" None)) in
   selected w = Some "B.md" ∧
   l_rawData (hook w) = Some linked ∧
   l_error (hook w) = Some "Failed to fetch local graph").
Proof. repeat split; vm_compute; reflexivity. Qed.

(** ** Single flight *)

(** C8 as stated fails: a second call of [fetchLinks] (or of
    [fetchLocalGraph]) for the same key while the first is in flight issues
    the backend commands again. *)
Lemma second_request_in_flight_is_duplicated :
  UseLinks.invoked
    (UseLinks.linksRun [UseLinks.Fetch (Some "A.md") 0;
                        UseLinks.Fetch (Some "A.md") 5]) = 2%nat ∧
  invoked (localRun [Fetch (Some "A.md") 1 0; Fetch (Some "A.md") 1 5]) = 2%nat.
Proof. split; vm_compute; reflexivity. Qed.

Lemma fetchLinks_start_Invoked_inv p now lc h :
  snd (UseLinks.fetchLinks_start p now lc h) = Invoked →
  JsString.truthy p = true ∧
  (∀ e, lc !! default EmptyString p = Some e → ¬ now - UseLinks.timestamp e < 30000).
Proof.
  unfold UseLinks.fetchLinks_start.
  destruct (JsString.truthy p); simpl; [|discriminate].
  intros H. split; [reflexivity|]. intros e He. rewrite He in H.
  unfold UseLinks.CACHE_TTL in H.
  destruct (Z.ltb_spec (now - UseLinks.timestamp e) 30000); [discriminate | lia].
Qed.

Lemma fetchLocalGraph_start_Invoked_inv p depth now gc h :
  snd (fetchLocalGraph_start p depth now gc h) = Invoked →
  JsString.truthy p = true ∧
  (∀ e, gc !! cacheKey (default EmptyString p) depth = Some e →
        ¬ now - UseGraph.timestamp e < 60000).
Proof.
  unfold fetchLocalGraph_start.
  destruct (JsString.truthy p); simpl; [|discriminate].
  intros H. split; [reflexivity|]. intros e He. rewrite He in H.
  unfold UseGraph.CACHE_TTL in H.
  destruct (Z.ltb_spec (now - UseGraph.timestamp e) 60000); [discriminate | lia].
Qed.

(** C8 (amended).  Only [fetchGraph] has an in-flight mark, and it is per
    hook instance: a call that issues the backend command sets
    [fetchInProgressRef], and a further call of the same instance before
    the command settles returns at once, without a backend call and
    without touching the state.  [fetchLinks] and [fetchLocalGraph] keep no
    such mark: while the first request is in flight (the cache is
    unchanged and the clock has not gone back) a second call for the same
    key issues the backend command again. *)
Theorem in_flight_mark_is_full_graph_only
    (now1 now2 : Z)
    (graphCache : gmap string UseGraph.CacheEntry)
    (linksCache : gmap string UseLinks.CacheEntry)
    (gh : GraphHook) (lh : LocalHook) (kh : UseLinks.LinksHook)
    (center path : option string) (depth : Z) :
  now1 <= now2 →
  snd (fetchGraph_start now1 graphCache gh) = Invoked →
  snd (fetchLocalGraph_start center depth now1 graphCache lh) = Invoked →
  snd (UseLinks.fetchLinks_start path now1 linksCache kh) = Invoked →
  (fetchInProgressRef (fst (fetchGraph_start now1 graphCache gh)) = true ∧
   fetchGraph_start now2 graphCache (fst (fetchGraph_start now1 graphCache gh))
   = (fst (fetchGraph_start now1 graphCache gh), Skipped)) ∧
  snd (fetchLocalGraph_start center depth now2 graphCache
         (fst (fetchLocalGraph_start center depth now1 graphCache lh))) = Invoked ∧
  snd (UseLinks.fetchLinks_start path now2 linksCache
         (fst (UseLinks.fetchLinks_start path now1 linksCache kh))) = Invoked.
Proof.
  intros Hnow Hg Hl Hk. split; [|split].
  - assert (Hmark : fetchInProgressRef (fst (fetchGraph_start now1 graphCache gh)) = true).
    { revert Hg. unfold fetchGraph_start.
      destruct (fetchInProgressRef gh); [discriminate|].
      destruct (graphCache !! "full") as [e|]; [|reflexivity].
      destruct (now1 - UseGraph.timestamp e <? UseGraph.CACHE_TTL);
        [discriminate | reflexivity]. }
    split; [exact Hmark|].
    unfold fetchGraph_start at 1. rewrite Hmark. reflexivity.
  - apply fetchLocalGraph_start_Invoked_inv in Hl as [Ht Hstale].
    unfold fetchLocalGraph_start at 1. rewrite Ht. simpl.
    destruct (graphCache !! cacheKey (default EmptyString center) depth) as [e|] eqn:He;
      [|reflexivity].
    specialize (Hstale e eq_refl). unfold UseGraph.CACHE_TTL.
    destruct (Z.ltb_spec (now2 - UseGraph.timestamp e) 60000); [lia | reflexivity].
  - apply fetchLinks_start_Invoked_inv in Hk as [Ht Hstale].
    unfold UseLinks.fetchLinks_start at 1. rewrite Ht. simpl.
    destruct (linksCache !! default EmptyString path) as [e|] eqn:He; [|reflexivity].
    specialize (Hstale e eq_refl). unfold UseLinks.CACHE_TTL.
    destruct (Z.ltb_spec (now2 - UseLinks.timestamp e) 30000); [lia | reflexivity].
Qed.

Lemma in_flight_mark_is_full_graph_only_witness :
  snd (fetchGraph_start 5 ∅ (fst (fetchGraph_start 0 ∅ initGraphHook))) = Skipped ∧
  snd (UseLinks.fetchLinks_start (Some "A.md") 5 ∅
         (fst (UseLinks.fetchLinks_start (Some "A.md") 0 ∅ UseLinks.initLinksHook)))
  = Invoked.
Proof.
  destruct (in_flight_mark_is_full_graph_only 0 5 ∅ ∅
              initGraphHook initLocalHook UseLinks.initLinksHook
              (Some "A.md") (Some "A.md") 1)
    as ((_ & Hskip) & _ & Hdup).
  - lia.
  - reflexivity.
  - reflexivity.
  - reflexivity.
  - split; [rewrite Hskip; reflexivity | exact Hdup].
Defined.

(** ** Wikilink matching *)

Import Regex Wikilink.

Lemma app_cons (c : ascii) (a b : string) :
  (String c a ++ b)%string = String c (a ++ b).
Proof. reflexivity. Qed.

Lemma app_empty (b : string) : (EmptyString ++ b)%string = b.
Proof. reflexivity. Qed.

Lemma take_drop_while (p : ascii -> bool) (s : string) :
  s = (takeWhile p s ++ dropWhile p s)%string.
Proof.
  induction s as [|c s IH]; simpl; [reflexivity|].
  destruct (p c); [rewrite app_cons; f_equal; exact IH | reflexivity].
Qed.

Lemma takeWhile_allChars (p : ascii -> bool) (s : string) :
  allChars p (takeWhile p s) = true.
Proof.
  induction s as [|c s IH]; simpl; [reflexivity|].
  destruct (p c) eqn:E; simpl; [rewrite E; exact IH | reflexivity].
Qed.

Lemma takeWhile_app_stop (p : ascii -> bool) (t rest : string) :
  allChars p t = true → startsWithClass p rest = false →
  takeWhile p (t ++ rest) = t ∧ dropWhile p (t ++ rest) = rest.
Proof.
  intros Ht Hr. induction t as [|c t IH].
  - rewrite app_empty. destruct rest as [|c r]; simpl in *; [auto|].
    rewrite Hr. auto.
  - rewrite app_cons. simpl in *. apply andb_true_iff in Ht as [Hc Ht].
    rewrite Hc. destruct (IH Ht) as [-> ->]. auto.
Qed.

Lemma substring_prefix (a b : string) :
  String.substring 0 (String.length a) (a ++ b) = a.
Proof.
  induction a as [|c a IH].
  - rewrite app_empty. destruct b; reflexivity.
  - rewrite app_cons. simpl. f_equal. exact IH.
Qed.

(** A greedy class repetition stops at the end of the longest run whenever
    the continuation cannot succeed in front of a character of the class:
    backtracking to a shorter run never helps. *)
Lemma starGreedy_longest {R : Type} (p : ascii -> bool) (s : string) :
  ∀ (i : nat) (pv : option ascii)
    (k : nat -> option ascii -> string -> option R),
    (∀ i' pv' c s', p c = true → k i' pv' (String c s') = None) →
    starGreedy p s i pv k
    = k (i + String.length (takeWhile p s))%nat (lastOr pv (takeWhile p s))
        (dropWhile p s).
Proof.
  induction s as [|c s IH]; intros i pv k Hk; simpl.
  - rewrite Nat.add_0_r. reflexivity.
  - destruct (p c) eqn:E; simpl.
    + rewrite (IH (S i) (Some c) k Hk). rewrite Nat.add_succ_r. simpl.
      destruct (k (S (i + String.length (takeWhile p s)))
                  (lastOr (Some c) (takeWhile p s)) (dropWhile p s));
        [reflexivity|].
      apply Hk. exact E.
    + rewrite Nat.add_0_r. reflexivity.
Qed.

Lemma notBracketOrBar_true (c : ascii) :
  notBracketOrBar c = true →
  Ascii.eqb c "]" = false ∧ Ascii.eqb c "|" = false.
Proof.
  unfold notBracketOrBar, noneOf. simpl. intros H.
  destruct (Ascii.eqb c "]"), (Ascii.eqb c "|"); simpl in H; auto; discriminate.
Qed.

Lemma notBracket_true (c : ascii) :
  notBracket c = true → Ascii.eqb c "]" = false.
Proof.
  unfold notBracket, noneOf. simpl. intros H.
  destruct (Ascii.eqb c "]"); simpl in H; auto; discriminate.
Qed.

Lemma substring_run_two (t r : string) (x y : ascii) (n : nat) :
  n = (String.length t + 2)%nat →
  String.substring 0 n (t ++ String x (String y r))
  = (t ++ String x (String y EmptyString))%string.
Proof.
  intros ->. induction t as [|c t IH].
  - rewrite !app_empty. simpl. destruct r; reflexivity.
  - rewrite !app_cons. simpl. f_equal. exact IH.
Qed.

Lemma substring_run_cons (a : ascii) (t r : string) (n : nat) :
  n = S (String.length t) →
  String.substring 0 n (String a (t ++ r)) = String a t.
Proof. intros ->. simpl. f_equal. apply substring_prefix. Qed.

Lemma substring_plain (a : ascii) (t r : string) (n : nat) :
  n = (String.length t + 5)%nat →
  String.substring 0 n
    (String "[" (String "[" (String a (t ++ String "]" (String "]" r)))))
  = ("[[" ++ String a t ++ "]]")%string.
Proof.
  intros ->. replace (String.length t + 5)%nat
    with (S (S (S (String.length t + 2)))) by lia.
  cbn [String.substring].
  rewrite substring_run_two by reflexivity. reflexivity.
Qed.

Lemma substring_aliased (a b : ascii) (t u r : string) (n : nat) :
  n = (String.length t + String.length u + 7)%nat →
  String.substring 0 n
    (String "[" (String "[" (String a
       (t ++ String "|" (String b (u ++ String "]" (String "]" r)))))))
  = ("[[" ++ String a t ++ "|" ++ String b u ++ "]]")%string.
Proof.
  intros ->. replace (String.length t + String.length u + 7)%nat
    with (S (S (S (String.length t + S (S (String.length u + 2)))))) by lia.
  cbn [String.substring].
  change ("[[" ++ String a t ++ "|" ++ String b u ++ "]]")%string
    with (String "[" (String "[" (String a (t ++ String "|" (String b (u ++ "]]")))))).
  do 3 f_equal.
  induction t as [|c t IH].
  - rewrite !app_empty. cbn [String.length Nat.add String.substring].
    do 2 f_equal. apply substring_run_two. reflexivity.
  - rewrite !app_cons. cbn [String.length Nat.add String.substring].
    f_equal. exact IH.
Qed.

Ltac step := try unfold resume; cbn [rmatch Lit rest pos prev caps].

Lemma wikilinkRegex_matchAt (s : string) (i : nat) (pv : option ascii) :
  matchAt wikilinkRegex s i pv = wikilinkAt s i.
Proof.
  unfold matchAt, wikilinkRegex, wikilinkAt. step.
  destruct s as [|c1 [|c2 body]]; step; try reflexivity.
  - destruct (Ascii.eqb c1 "["); reflexivity.
  - destruct (Ascii.eqb c1 "[") eqn:E1; [|reflexivity].
    destruct (Ascii.eqb c2 "[") eqn:E2; [|reflexivity].
    apply Ascii.eqb_eq in E1, E2. subst c1 c2.
    cbn [andb].
    destruct body as [|a s']; step; [reflexivity|].
    cbn [takeWhile dropWhile].
    destruct (notBracketOrBar a) eqn:Ea; step; [|reflexivity].
    rewrite starGreedy_longest.
    2:{ intros i' pv' c s'0 Hc.
        destruct (notBracketOrBar_true c Hc) as [H1 H2].
        rewrite H2, H1. reflexivity. }
    pose proof (take_drop_while notBracketOrBar s') as Hs'.
    set (t' := takeWhile notBracketOrBar s') in *.
    cbn [String.eqb].
    destruct (dropWhile notBracketOrBar s') as [|c3 r2] eqn:Hd; [reflexivity|].
    assert (Hcap : String.substring 0
              (S (S (S i)) + String.length t' - S (S i)) (String a s')
            = String a t').
    { rewrite Hs'. apply substring_run_cons. lia. }
    rewrite Hcap.
    destruct (Ascii.eqb c3 "|") eqn:E3.
    + apply Ascii.eqb_eq in E3. subst c3.
      change (Ascii.eqb "|" "]") with false. cbv iota.
      destruct r2 as [|a1 s'1]; [reflexivity|].
      cbn [takeWhile dropWhile].
      destruct (notBracket a1) eqn:Ea1; [|reflexivity].
      rewrite starGreedy_longest.
      2:{ intros i' pv' c s'0 Hc.
          rewrite (notBracket_true c Hc). reflexivity. }
      pose proof (take_drop_while notBracket s'1) as Hs1.
      set (u := takeWhile notBracket s'1) in *.
      cbn [String.eqb negb andb].
      destruct (dropWhile notBracket s'1) as [|a2 [|a3 s'3]] eqn:Hd1;
        cbn [closesHere]; try reflexivity.
      * destruct (Ascii.eqb a2 "]"); reflexivity.
      * destruct (Ascii.eqb a2 "]") eqn:E4; cbn [andb]; [|reflexivity].
        destruct (Ascii.eqb a3 "]") eqn:E5; [|reflexivity].
        apply Ascii.eqb_eq in E4, E5. subst a2 a3.
        f_equal. f_equal.
        -- rewrite Hs', Hs1. apply substring_aliased. lia.
        -- f_equal. f_equal. rewrite Hs1. apply substring_run_cons. lia.
    + cbn [closesHere].
      destruct (Ascii.eqb c3 "]") eqn:E4; cbn [andb];
        [|destruct r2; reflexivity].
      destruct r2 as [|a1 s'1]; [reflexivity|].
      destruct (Ascii.eqb a1 "]") eqn:E5; [|reflexivity].
      apply Ascii.eqb_eq in E4, E5. subst c3 a1.
      f_equal. f_equal.
      rewrite Hs'. apply substring_plain. lia.
Qed.

Lemma scanFrom_hits (P : MatchResult → Prop) (r : regex) :
  (∀ s i pv m, matchAt r s i pv = Some m → P m) →
  ∀ s i pv skip,
    Forall (fun g => match g with Hit m => P m | Keep _ => True end)
           (scanFrom r s i pv skip).
Proof.
  intros HP. induction s as [|c s IH]; intros i pv skip.
  - destruct skip; simpl; [|constructor].
    destruct (matchAt r EmptyString i pv) eqn:E; repeat constructor. eauto.
  - destruct skip; simpl; [|apply IH].
    destruct (matchAt r (String c s) i pv) as [m|] eqn:E.
    + constructor; [eauto|].
      destruct (String.length (matched m)); [constructor; [exact I|]|]; apply IH.
    + constructor; [exact I | apply IH].
Qed.

Lemma matchAll_Forall (P : MatchResult → Prop) (r : regex) (text : string) :
  (∀ s i pv m, matchAt r s i pv = Some m → P m) →
  Forall P (matchAll r text).
Proof.
  intros HP. unfold matchAll, scan.
  pose proof (scanFrom_hits P r HP text 0%nat None 0%nat) as H.
  induction H as [|g gs Hg _ IH]; simpl; [constructor|].
  destruct g; simpl; [exact IH | constructor; assumption].
Qed.

Lemma string_eqb_empty (t : string) : String.eqb t EmptyString = false → t ≠ EmptyString.
Proof. intros H ->. discriminate H. Qed.

Lemma wikilinkAt_wellShaped (s : string) (i : nat) (m : MatchResult) :
  wikilinkAt s i = Some m → wellShaped m.
Proof.
  unfold wikilinkAt.
  destruct s as [|c1 [|c2 body]]; try discriminate.
  destruct (Ascii.eqb c1 "[" && Ascii.eqb c2 "["); [|discriminate].
  cbv zeta.
  destruct (String.eqb (takeWhile notBracketOrBar body) EmptyString) eqn:Et; [discriminate|].
  destruct (dropWhile notBracketOrBar body) as [|c3 r2]; [discriminate|].
  destruct (Ascii.eqb c3 "|").
  - destruct (String.eqb (takeWhile notBracket r2) EmptyString) eqn:Ea; [discriminate|].
    cbn [negb andb].
    destruct (closesHere (dropWhile notBracket r2)); [|discriminate].
    intros [= <-]. exists (takeWhile notBracketOrBar body). simpl.
    repeat split; auto using string_eqb_empty, takeWhile_allChars.
  - destruct (closesHere (String c3 r2)); [|discriminate].
    intros [= <-]. exists (takeWhile notBracketOrBar body). simpl.
    repeat split; auto using string_eqb_empty, takeWhile_allChars.
Qed.

(** C5 as stated fails: the target of a match may run over a line break. *)
Lemma target_spans_newline : ¬ neverSpansNewline twoLineLink.
Proof.
  intros H. apply Forall_inv in H. vm_compute in H. destruct H. discriminate.
Qed.

Example twoLineLink_match :
  map (group 1) (matchAll wikilinkRegex twoLineLink) = [String "a" (String LF "b")].
Proof. vm_compute. reflexivity. Qed.

Example twoLineLink_preprocessed :
  ReadingView.preprocessMarkdown twoLineLink
  = ReadingView.wikilinkSpan (String "a" (String LF "b")) (String "a" (String LF "b")).
Proof. vm_compute. reflexivity. Qed.

(** C5 (amended).  For every text, every match of [wikilinkRegex] has a
    non-empty target without []] and [|] and, when the alias took part, a
    non-empty alias without []]; the match is exactly the target (and the
    alias after a [|]) in double brackets.  No other character is excluded:
    a line break inside the brackets is part of the target or alias. *)
Theorem wikilink_matches_wellShaped (text : string) :
  Forall wellShaped (matchAll wikilinkRegex text).
Proof.
  apply matchAll_Forall. intros s i pv m.
  rewrite wikilinkRegex_matchAt. apply wikilinkAt_wellShaped.
Qed.

(** *** The four reference forms *)

Lemma empty_eqb (t : string) : t ≠ EmptyString → String.eqb t EmptyString = false.
Proof. destruct t; [contradiction | reflexivity]. Qed.

Lemma allChars_app (p : ascii -> bool) (a b : string) :
  allChars p (a ++ b) = allChars p a && allChars p b.
Proof.
  induction a as [|c a IH]; [reflexivity|].
  rewrite app_cons. simpl. rewrite IH. apply andb_assoc.
Qed.

(** [[[target]]] at the front of any text. *)
Lemma wikilinkAt_plain (t rest : string) (i : nat) :
  t ≠ EmptyString → allChars notBracketOrBar t = true →
  wikilinkAt ("[[" ++ t ++ "]]" ++ rest) i
  = Some {| index := i; matched := "[[" ++ t ++ "]]"; groups := [(1%nat, t)] |}.
Proof.
  intros Hne Ht.
  change ("[[" ++ t ++ "]]" ++ rest)%string
    with (String "[" (String "[" (t ++ String "]" (String "]" rest)))).
  unfold wikilinkAt. cbn [Ascii.eqb andb]. simpl (_ && _).
  destruct (takeWhile_app_stop notBracketOrBar t (String "]" (String "]" rest)) Ht eq_refl)
    as [-> ->].
  rewrite (empty_eqb t Hne). reflexivity.
Qed.

(** [[[target|alias]]] at the front of any text. *)
Lemma wikilinkAt_aliased (t a rest : string) (i : nat) :
  t ≠ EmptyString → allChars notBracketOrBar t = true →
  a ≠ EmptyString → allChars notBracket a = true →
  wikilinkAt ("[[" ++ t ++ "|" ++ a ++ "]]" ++ rest) i
  = Some {| index := i; matched := "[[" ++ t ++ "|" ++ a ++ "]]";
            groups := [(2%nat, a); (1%nat, t)] |}.
Proof.
  intros Hne Ht Hna Ha.
  change ("[[" ++ t ++ "|" ++ a ++ "]]" ++ rest)%string
    with (String "[" (String "["
            (t ++ String "|" (a ++ String "]" (String "]" rest))))).
  unfold wikilinkAt. simpl (_ && _).
  destruct (takeWhile_app_stop notBracketOrBar t
              (String "|" (a ++ String "]" (String "]" rest))) Ht eq_refl)
    as [-> ->].
  rewrite (empty_eqb t Hne). simpl (Ascii.eqb _ _).
  destruct (takeWhile_app_stop notBracket a (String "]" (String "]" rest)) Ha eq_refl)
    as [-> ->].
  rewrite (empty_eqb a Hna). reflexivity.
Qed.

(** The first result of a scan is the match at the front of the text. *)
Lemma matchAll_head (r : regex) (s : string) (m : MatchResult) :
  matchAt r s 0 None = Some m → head (matchAll r s) = Some m.
Proof.
  intros H. unfold matchAll, scan.
  destruct s as [|c s]; simpl; rewrite H; reflexivity.
Qed.

(** The matcher recognizes the four inline forms, at the front of any
    text: the heading and block anchors are part of the raw target. *)
Lemma four_forms_recognized (target alias heading blockid rest : string) :
  target ≠ EmptyString → allChars notBracketOrBar target = true →
  alias ≠ EmptyString → allChars notBracket alias = true →
  allChars notBracketOrBar heading = true →
  allChars notBracketOrBar blockid = true →
  head (matchAll wikilinkRegex ("[[" ++ target ++ "]]" ++ rest))
  = Some {| index := 0; matched := "[[" ++ target ++ "]]";
            groups := [(1%nat, target)] |} ∧
  head (matchAll wikilinkRegex ("[[" ++ target ++ "|" ++ alias ++ "]]" ++ rest))
  = Some {| index := 0; matched := "[[" ++ target ++ "|" ++ alias ++ "]]";
            groups := [(2%nat, alias); (1%nat, target)] |} ∧
  head (matchAll wikilinkRegex ("[[" ++ (target ++ "#" ++ heading) ++ "]]" ++ rest))
  = Some {| index := 0; matched := "[[" ++ (target ++ "#" ++ heading) ++ "]]";
            groups := [(1%nat, target ++ "#" ++ heading)] |} ∧
  head (matchAll wikilinkRegex ("[[" ++ (target ++ "#^" ++ blockid) ++ "]]" ++ rest))
  = Some {| index := 0; matched := "[[" ++ (target ++ "#^" ++ blockid) ++ "]]";
            groups := [(1%nat, target ++ "#^" ++ blockid)] |}.
Proof.
  intros Hne Ht Hna Ha Hh Hb.
  assert (Happ : ∀ x y : string, x ≠ EmptyString → (x ++ y)%string ≠ EmptyString).
  { intros [|c x] y Hx; [contradiction | rewrite app_cons; discriminate]. }
  repeat split; apply matchAll_head; rewrite wikilinkRegex_matchAt.
  - apply wikilinkAt_plain; assumption.
  - apply wikilinkAt_aliased; assumption.
  - apply wikilinkAt_plain; [apply Happ; assumption|].
    rewrite allChars_app, Ht. change ("#" ++ heading)%string with (String "#" heading).
    simpl. exact Hh.
  - apply wikilinkAt_plain; [apply Happ; assumption|].
    rewrite allChars_app, Ht.
    change ("#^" ++ blockid)%string with (String "#" (String "^" blockid)).
    simpl. exact Hb.
Qed.

Example four_forms_sample :
  map (fun m => (group 1 m, group 2 m))
      (matchAll wikilinkRegex
         "[[Note]] [[Note|shown]] [[Note#Heading]] [[Note#^block1]]")
  = [("Note", EmptyString); ("Note", "shown"); ("Note#Heading", EmptyString); ("Note#^block1", EmptyString)].
Proof. vm_compute. reflexivity. Qed.

(** *** Matches inside code *)

Lemma inCodeBlock_complete (start end_ : nat) (n : SyntaxNode) :
  (start <= end_)%nat → inCodeNode start end_ n →
  inCodeBlock start end_ n = true.
Proof.
  intros Hse H. induction H as [name f t cs Hname Hf Ht | name f t cs c Hf Ht Hin _ IH].
  - simpl. rewrite Hname.
    destruct (Nat.leb_spec f end_); [|lia].
    destruct (Nat.leb_spec start t); [|lia]. reflexivity.
  - simpl.
    destruct (Nat.leb_spec f end_); [|lia].
    destruct (Nat.leb_spec start t); [|lia]. simpl.
    destruct (isCodeName name); [reflexivity|].
    apply existsb_exists. exists c. auto.
Qed.

(** The editor decoration skips every match that lies inside a code node. *)
Lemma decorations_skip_code (view : EditorView) (from : nat) (m : MatchResult) :
  inCodeNode (from + index m) (from + index m + String.length (matched m))
             (tree view) →
  decorateMatch view from m = [].
Proof.
  intros H. unfold decorateMatch.
  rewrite inCodeBlock_complete; [reflexivity | lia | exact H].
Qed.

Example decorations_in_inline_code :
  buildWikilinkDecorations
    {| doc := inlineCodeDoc; visibleRanges := [(0, 7)%nat]; tree := inlineCodeTree |}
  = [].
Proof. vm_compute. reflexivity. Qed.

Example decorations_in_fenced_code :
  buildWikilinkDecorations
    {| doc := fencedCodeDoc; visibleRanges := [(0, 13)%nat]; tree := fencedCodeTree |}
  = [].
Proof. vm_compute. reflexivity. Qed.

Example decorations_in_prose :
  buildWikilinkDecorations
    {| doc := plainDoc; visibleRanges := [(0, 9)%nat]; tree := plainTree |}
  = [ {| d_from := 4; d_to := 6; d_mark := wikilinkBracketMark |};
      {| d_from := 6; d_to := 7; d_mark := wikilinkMark |};
      {| d_from := 7; d_to := 9; d_mark := wikilinkBracketMark |} ].
Proof. vm_compute. reflexivity. Qed.

Example stripFrontmatter_yaml :
  ReadingView.stripFrontmatter
    ("---" ++ String LF ("title: x" ++ String LF ("---" ++ String LF "body")))
  = "body".
Proof. vm_compute. reflexivity. Qed.

Example stripFrontmatter_none :
  ReadingView.stripFrontmatter "body --- text" = "body --- text".
Proof. vm_compute. reflexivity. Qed.

Example preprocessMarkdown_tag :
  ReadingView.preprocessMarkdown "a #t1 b#no"
  = "a" ++ ReadingView.tagSpan
             {| index := 1; matched := " #t1";
                groups := [(2%nat, "t1"); (1%nat, " ")] |} ++ " b#no".
Proof. vm_compute. reflexivity. Qed.

(** C6 (code spans on the code).  [preprocessMarkdown] rewrites a reference
    that is quoted in an inline code span or in a fenced code block into a
    wikilink span, where the editor decoration skips it. *)
Theorem preprocessMarkdown_rewrites_inside_code :
  ReadingView.preprocessMarkdown inlineCodeDoc
  = "`" ++ ReadingView.wikilinkSpan "a" "a" ++ "`" ∧
  ReadingView.preprocessMarkdown fencedCodeDoc
  = "```" ++ String LF (ReadingView.wikilinkSpan "a" "a" ++ String LF "```").
Proof. split; vm_compute; reflexivity. Qed.

(* ====================================================================== *)
(** * Further properties of the modelled code *)
(* ====================================================================== *)

(** ** What [transformToD3] returns *)

Lemma backendFields_toD3Node (mx : Z) (cp : option string) (n : GraphNode) :
  backendFields (toD3Node mx cp n) = n.
Proof. destruct n; reflexivity. Qed.

Lemma edgeFields_toD3Edge (e : GraphEdge) : edgeFields (toD3Edge e) = e.
Proof. destruct e; reflexivity. Qed.

Lemma map_backendFields (mx : Z) (cp : option string) (ns : list GraphNode) :
  map backendFields (map (toD3Node mx cp) ns) = ns.
Proof.
  induction ns as [|n ns IH]; simpl; [reflexivity|].
  rewrite backendFields_toD3Node, IH. reflexivity.
Qed.

Lemma map_edgeFields (es : list GraphEdge) :
  map edgeFields (map toD3Edge es) = es.
Proof.
  induction es as [|e es IH]; simpl; [reflexivity|].
  rewrite edgeFields_toD3Edge, IH. reflexivity.
Qed.

Lemma filter_all {A : Type} (f : A → bool) (l : list A) :
  (∀ x, In x l → f x = true) → List.filter f l = l.
Proof.
  intros H. apply forallb_filter_id. apply forallb_forall. exact H.
Qed.

Lemma filter_sublist {A : Type} (f : A → bool) (l : list A) :
  sublist (List.filter f l) l.
Proof.
  induction l as [|x l IH]; simpl; [constructor|].
  destruct (f x); [apply sublist_skip | apply sublist_cons]; exact IH.
Qed.

Lemma orphans_shown (filters : GraphFilterOptions) :
  showOrphans filters ≠ Some false → default true (showOrphans filters) = true.
Proof. destruct (showOrphans filters) as [[|]|]; simpl; congruence. Qed.

Lemma concepts_shown (filters : GraphFilterOptions) :
  showConceptLinks filters ≠ Some false →
  default true (showConceptLinks filters) = true.
Proof. destruct (showConceptLinks filters) as [[|]|]; simpl; congruence. Qed.

(** X1.  With no folder set and neither flag switched off, every input node
    is returned, in order and with its backend fields, and the returned
    edges are the input edges both of whose endpoints are node ids. *)
Theorem transformToD3_unfiltered
    (data : GraphData) (filters : GraphFilterOptions) (centerPath : option string) :
  JsString.truthy (folderPath filters) = false →
  showOrphans filters ≠ Some false →
  showConceptLinks filters ≠ Some false →
  map backendFields (d3_nodes (transformToD3 data filters centerPath))
  = nodes data ∧
  map edgeFields (d3_edges (transformToD3 data filters centerPath))
  = List.filter (endpointsIn (nodes data)) (edges data).
Proof.
  intros Hfp Hso Hsc. apply orphans_shown in Hso. apply concepts_shown in Hsc.
  assert (Hn0 : filteredNodes0 data filters = nodes data).
  { unfold filteredNodes0. apply filter_all. intros n _.
    unfold nodePass. rewrite Hfp, Hso. reflexivity. }
  simpl. rewrite map_backendFields, map_edgeFields. split.
  - unfold filteredNodes. rewrite Hso. exact Hn0.
  - unfold filteredEdges. rewrite Hn0, Hsc. apply filter_ext. intros e.
    unfold edgePass, endpointsIn.
    destruct (bool_decide (source e ∈ idSet (nodes data)));
      destruct (bool_decide (target e ∈ idSet (nodes data))); reflexivity.
Qed.

Lemma transformToD3_unfiltered_witness :
  map backendFields (d3_nodes (transformToD3 foldered noFilters None))
  = nodes foldered.
Proof.
  apply (transformToD3_unfiltered foldered noFilters None);
    [reflexivity | discriminate | discriminate].
Defined.

(** X2.  With a folder set and orphans shown, the returned nodes are exactly
    the input nodes whose path starts with the folder, in order; in
    particular no node with an empty path (a concept node) is returned. *)
Theorem transformToD3_folder_scope
    (data : GraphData) (filters : GraphFilterOptions) (centerPath : option string)
    (p : string) :
  folderPath filters = Some p → p ≠ EmptyString →
  showOrphans filters ≠ Some false →
  map backendFields (d3_nodes (transformToD3 data filters centerPath))
  = List.filter (inFolder p) (nodes data) ∧
  Forall (fun n => d3_path n ≠ EmptyString)
         (d3_nodes (transformToD3 data filters centerPath)).
Proof.
  intros Hfp Hp Hso. apply orphans_shown in Hso.
  assert (Hn : filteredNodes data filters = List.filter (inFolder p) (nodes data)).
  { unfold filteredNodes, filteredNodes0. rewrite Hso. apply filter_ext.
    intros n. unfold nodePass, inFolder. rewrite Hfp. simpl.
    destruct (String.eqb p EmptyString) eqn:E.
    { apply String.eqb_eq in E. contradiction. }
    simpl. destruct (JsString.startsWith (path n) p); reflexivity. }
  simpl. rewrite map_backendFields, Hn. split; [reflexivity|].
  apply Forall_forall. intros n Hin. apply list_elem_of_In in Hin.
  apply in_map_iff in Hin as (m & <- & Hm). simpl.
  apply filter_In in Hm as [_ Hm]. unfold inFolder, JsString.startsWith in Hm.
  intros Hempty. rewrite Hempty in Hm.
  destruct p; [contradiction | discriminate].
Qed.

Lemma transformToD3_folder_scope_witness :
  map backendFields (d3_nodes (transformToD3 foldered (folderFilter "work") None))
  = [noteW1; noteW2].
Proof.
  destruct (transformToD3_folder_scope foldered (folderFilter "work") None "work")
    as [H _]; [reflexivity | discriminate | discriminate |].
  exact H.
Defined.

(** X3.  With [showConceptLinks = false] no returned edge is a concept
    edge. *)
Theorem hidden_concept_links_are_dropped
    (data : GraphData) (filters : GraphFilterOptions) (centerPath : option string) :
  showConceptLinks filters = Some false →
  Forall (fun e => d3_edgeType e = direct)
         (d3_edges (transformToD3 data filters centerPath)).
Proof.
  intros Hsc. simpl. apply Forall_forall. intros e He.
  apply list_elem_of_In in He. apply in_map_iff in He as (e0 & <- & He0).
  unfold filteredEdges in He0. apply filter_In in He0 as [_ Hp].
  unfold edgePass in Hp. rewrite Hsc in Hp. simpl in Hp.
  destruct (negb (bool_decide (source e0 ∈ idSet (filteredNodes0 data filters))) ||
            negb (bool_decide (target e0 ∈ idSet (filteredNodes0 data filters))));
    [discriminate|].
  unfold isConceptEdge in Hp. simpl. destruct (edgeType e0); [reflexivity | discriminate].
Qed.

Lemma hidden_concept_links_are_dropped_witness :
  Forall (fun e => d3_edgeType e = direct)
         (d3_edges (transformToD3 foldered (withFlags true false) None)).
Proof.
  apply (hidden_concept_links_are_dropped foldered (withFlags true false) None).
  reflexivity.
Defined.

(** X4.  With [showOrphans = false] no returned node has a backend count of
    zero. *)
Theorem hidden_orphans_are_dropped
    (data : GraphData) (filters : GraphFilterOptions) (centerPath : option string) :
  showOrphans filters = Some false →
  Forall (fun n => d3_connections n ≠ 0)
         (d3_nodes (transformToD3 data filters centerPath)).
Proof.
  intros Hso. simpl. apply Forall_forall. intros n Hn.
  apply list_elem_of_In in Hn. apply in_map_iff in Hn as (m & <- & Hm). simpl.
  apply filteredNodes_incl0 in Hm. unfold filteredNodes0 in Hm.
  apply filter_In in Hm as [_ Hp]. unfold nodePass in Hp. rewrite Hso in Hp.
  simpl in Hp.
  destruct (JsString.truthy (folderPath filters) &&
            negb (JsString.startsWith (path m)
                    (default EmptyString (folderPath filters))));
    [discriminate|].
  destruct (Z.eqb_spec (connections m) 0); [discriminate | assumption].
Qed.

Lemma hidden_orphans_are_dropped_witness :
  Forall (fun n => d3_connections n ≠ 0)
         (d3_nodes (transformToD3 foldered (withFlags false true) None)).
Proof.
  apply (hidden_orphans_are_dropped foldered (withFlags false true) None).
  reflexivity.
Defined.

(** X5.  Filtering only removes: for every filter setting the returned
    nodes and the returned edges are subsequences of the input nodes and
    edges (nothing is added, duplicated or reordered). *)
Theorem transformToD3_subsequences
    (data : GraphData) (filters : GraphFilterOptions) (centerPath : option string) :
  sublist (map backendFields (d3_nodes (transformToD3 data filters centerPath)))
          (nodes data) ∧
  sublist (map edgeFields (d3_edges (transformToD3 data filters centerPath)))
          (edges data) ∧
  sublist (d3_concepts (transformToD3 data filters centerPath)) (concepts data).
Proof.
  simpl. rewrite map_backendFields, map_edgeFields. repeat split.
  - unfold filteredNodes.
    destruct (default true (showOrphans filters)).
    + apply filter_sublist.
    + etransitivity; [apply filter_sublist|]. apply filter_sublist.
  - apply filter_sublist.
  - apply filter_sublist.
Qed.

(** X6.  The size of a node does not depend on the filters or on the center:
    two returned nodes with the same backend count, under any two filter
    settings of the same graph, have the same size (the scale is taken
    from the unfiltered node list). *)
Theorem node_size_independent_of_filters
    (data : GraphData) (f1 f2 : GraphFilterOptions) (c1 c2 : option string)
    (n1 n2 : D3Node) :
  In n1 (d3_nodes (transformToD3 data f1 c1)) →
  In n2 (d3_nodes (transformToD3 data f2 c2)) →
  d3_connections n1 = d3_connections n2 →
  size n1 = size n2.
Proof.
  simpl. intros H1 H2 Hc.
  apply in_map_iff in H1 as (m1 & <- & _).
  apply in_map_iff in H2 as (m2 & <- & _).
  simpl in *. rewrite Hc. reflexivity.
Qed.

Lemma node_size_independent_of_filters_witness :
  size (toD3Node 2 None noteW2) = size (toD3Node 2 (Some "r.md") noteW2).
Proof.
  apply (node_size_independent_of_filters foldered noFilters (folderFilter "work")
           None (Some "r.md")).
  - vm_compute. right. left. reflexivity.
  - vm_compute. right. left. reflexivity.
  - reflexivity.
Defined.

(** X7.  A returned node is marked as center exactly when a non-empty
    center path is given and equals the node's path; a node with an empty
    path (a concept node) is never the center. *)
Theorem center_flag_iff_path_matches
    (data : GraphData) (filters : GraphFilterOptions) (centerPath : option string) :
  Forall (fun n => isCenter n = true ↔
                   (d3_path n ≠ EmptyString ∧ centerPath = Some (d3_path n)))
         (d3_nodes (transformToD3 data filters centerPath)).
Proof.
  simpl. apply Forall_forall. intros n Hn. apply list_elem_of_In in Hn.
  apply in_map_iff in Hn as (m & <- & _). simpl.
  destruct centerPath as [cp|]; simpl.
  - destruct (String.eqb cp EmptyString) eqn:E; simpl.
    + apply String.eqb_eq in E. subst cp. split; [discriminate|].
      intros [Hne [= Heq]]. congruence.
    + split.
      * intros H. apply String.eqb_eq in H. subst cp. split; [|reflexivity].
        intros Hp. rewrite Hp in E. discriminate.
      * intros [_ [= ->]]. apply String.eqb_refl.
  - split; [discriminate | intros [_ [=]]].
Qed.

(** X8.  A concept is returned exactly when it is an input concept one of
    whose notes is the id of a node that passes the folder and zero-count
    checks. *)
Theorem returned_concepts_have_a_kept_note
    (data : GraphData) (filters : GraphFilterOptions) (centerPath : option string)
    (c : ConceptInfo) :
  In c (d3_concepts (transformToD3 data filters centerPath)) ↔
  In c (concepts data) ∧
  ∃ n, In n (filteredNodes0 data filters) ∧ In (id n) (notes c).
Proof.
  simpl. rewrite filter_In. split.
  - intros [Hc Hex]. split; [exact Hc|].
    apply existsb_exists in Hex as (p & Hp & Hv).
    apply bool_decide_eq_true in Hv. apply idSet_spec in Hv as (n & Hn & <-).
    exists n. auto.
  - intros [Hc (n & Hn & Hin)]. split; [exact Hc|].
    apply existsb_exists. exists (id n). split; [exact Hin|].
    apply bool_decide_eq_true. apply idSet_spec. exists n. auto.
Qed.

(** ** The views *)

Lemma nodeMap_acc (ns : list D3Node) (m : gmap string D3Node) (i : string) :
  (∀ n, m !! i = Some n → d3_id n = i) →
  (∀ n, fold_left (fun m n => <[d3_id n := n]> m) ns m !! i = Some n →
        d3_id n = i) ∧
  ((is_Some (m !! i) ∨ In i (map d3_id ns)) →
   is_Some (fold_left (fun m n => <[d3_id n := n]> m) ns m !! i)).
Proof.
  revert m. induction ns as [|x ns IH]; intros m Hm; simpl.
  - split; [exact Hm | intros [H | []]; exact H].
  - assert (Hm' : ∀ n, <[d3_id x := x]> m !! i = Some n → d3_id n = i).
    { intros n. destruct (decide (d3_id x = i)) as [<- | Hne].
      - rewrite lookup_insert_eq. congruence.
      - rewrite lookup_insert_ne by exact Hne. apply Hm. }
    destruct (IH _ Hm') as [IH1 IH2]. split; [exact IH1|].
    intros [H | [H | H]]; apply IH2.
    + left. destruct (decide (d3_id x = i)) as [<- | Hne].
      * rewrite lookup_insert_eq. eauto.
      * rewrite lookup_insert_ne by exact Hne. exact H.
    + left. rewrite H, lookup_insert_eq. eauto.
    + right. exact H.
Qed.

Lemma nodeMap_lookup (ns : list D3Node) (i : string) :
  In i (map d3_id ns) → ∃ n, GraphView.nodeMap ns !! i = Some n ∧ d3_id n = i.
Proof.
  intros Hin. unfold GraphView.nodeMap.
  destruct (nodeMap_acc ns ∅ i) as [H1 H2].
  { intros n. rewrite lookup_empty. discriminate. }
  destruct H2 as [n Hn]; [right; exact Hin|]. exists n. auto.
Qed.

(** X9.  The views resolve every edge returned by [transformToD3]: the link
    list handed to the force simulation has one link per returned edge, in
    order, whose end nodes carry the edge's source and target ids, so no
    edge is silently dropped for a missing node. *)
Theorem every_returned_edge_resolves
    (data : GraphData) (filters : GraphFilterOptions) (centerPath : option string) :
  map (fun l => (d3_id (GraphView.l_source l), d3_id (GraphView.l_target l),
                 GraphView.l_edgeType l, GraphView.l_concept l))
      (GraphView.links (transformToD3 data filters centerPath))
  = map (fun e => (d3_source e, d3_target e, d3_edgeType e, d3_concept e))
        (d3_edges (transformToD3 data filters centerPath)).
Proof.
  unfold GraphView.links.
  set (g := transformToD3 data filters centerPath).
  assert (Hall : ∀ e, In e (d3_edges g) →
            In (d3_source e) (map d3_id (d3_nodes g)) ∧
            In (d3_target e) (map d3_id (d3_nodes g))).
  { intros e He. subst g. simpl in *.
    apply in_map_iff in He as (e0 & <- & He0).
    pose proof He0 as Hf. unfold filteredEdges in Hf.
    apply filter_In in Hf as [_ Hpass].
    apply edgePass_endpoints in Hpass as [Hs Ht].
    rewrite map_map. simpl. split.
    - destruct (endpoint_survives data filters e0 (source e0) He0
                  (or_introl eq_refl) Hs) as (n & Hn & Hid).
      apply in_map_iff. exists n. auto.
    - destruct (endpoint_survives data filters e0 (target e0) He0
                  (or_intror eq_refl) Ht) as (n & Hn & Hid).
      apply in_map_iff. exists n. auto. }
  induction (d3_edges g) as [|e es IH]; [reflexivity|].
  destruct (Hall e (or_introl eq_refl)) as [Hs Ht].
  apply nodeMap_lookup in Hs as (s & Hs & Hsid).
  apply nodeMap_lookup in Ht as (t & Ht & Htid).
  cbn [omap list_omap]. unfold GraphView.resolveLink at 1. rewrite Hs, Ht.
  cbn [map GraphView.l_source GraphView.l_target GraphView.l_edgeType
       GraphView.l_concept].
  rewrite Hsid, Htid. f_equal. apply IH. intros e' He'. apply Hall. right. exact He'.
Qed.

(** X28.  On backend data (no negative count) the returned nodes depend on
    the folder and on [showOrphans] only: two filter settings that agree on
    these return the same nodes, whatever [showConceptLinks] and [tag] are
    and whichever edges survive. *)
Theorem returned_nodes_ignore_edge_filters
    (data : GraphData) (f1 f2 : GraphFilterOptions) (centerPath : option string) :
  (∀ n, In n (nodes data) → 0 <= connections n) →
  folderPath f1 = folderPath f2 →
  showOrphans f1 = showOrphans f2 →
  d3_nodes (transformToD3 data f1 centerPath)
  = d3_nodes (transformToD3 data f2 centerPath).
Proof.
  intros Hnn Hfp Hso. simpl.
  rewrite !(second_orphan_pass_removes_nothing data _ Hnn).
  unfold filteredNodes0. rewrite Hfp, Hso. reflexivity.
Qed.

Lemma returned_nodes_ignore_edge_filters_witness :
  d3_nodes (transformToD3 conceptOnly (withFlags false true) None)
  = d3_nodes (transformToD3 conceptOnly (withFlags false false) None).
Proof.
  apply returned_nodes_ignore_edge_filters; [|reflexivity|reflexivity].
  intros n [<- | [<- | []]]; simpl; lia.
Defined.

(** ** Folders and tags *)

Lemma lastIndexOf_from_absent (c : ascii) (s : string) :
  ∀ i acc, allChars (fun x => negb (Ascii.eqb x c)) s = true →
           JsString.lastIndexOf_from c i s acc = acc.
Proof.
  induction s as [|a s IH]; intros i acc H; simpl in *; [reflexivity|].
  apply andb_true_iff in H as [Ha Hs].
  apply negb_true_iff in Ha. rewrite Ha. apply IH. exact Hs.
Qed.

Lemma lastIndexOf_from_last (c : ascii) (a b : string) :
  allChars (fun x => negb (Ascii.eqb x c)) b = true →
  ∀ i acc, JsString.lastIndexOf_from c i (a ++ String c b) acc
           = i + Z.of_nat (String.length a).
Proof.
  intros Hb. induction a as [|x a IH]; intros i acc.
  - rewrite app_empty. simpl. rewrite Ascii.eqb_refl.
    rewrite (lastIndexOf_from_absent c b _ _ Hb). lia.
  - rewrite app_cons. simpl JsString.lastIndexOf_from. rewrite IH.
    simpl String.length. lia.
Qed.

(** X10.  [getFolderPath] returns the directory part of a path: for
    [dir/name] with a non-empty [dir] and a [name] without slash it is
    [dir]; for a bare [name], and for [/name], it is the root marker [/]. *)
Theorem getFolderPath_directory (dir name : string) :
  allChars notSlash name = true →
  (dir ≠ EmptyString → getFolderPath (dir ++ "/" ++ name) = dir) ∧
  getFolderPath name = "/" ∧
  getFolderPath ("/" ++ name) = "/".
Proof.
  intros Hname. repeat split.
  - intros Hdir. unfold getFolderPath, JsString.lastIndexOf.
    change (dir ++ "/" ++ name)%string with (dir ++ String "/" name)%string.
    rewrite (lastIndexOf_from_last "/" dir name Hname).
    destruct dir as [|d dir]; [contradiction|].
    destruct (Z.ltb_spec 0 (0 + Z.of_nat (String.length (String d dir)))) as [_|H];
      [|simpl in H; lia].
    unfold JsString.substring0. rewrite Z.add_0_l, Nat2Z.id.
    apply substring_prefix.
  - unfold getFolderPath, JsString.lastIndexOf.
    rewrite (lastIndexOf_from_absent "/" name _ _ Hname). reflexivity.
  - unfold getFolderPath, JsString.lastIndexOf.
    change ("/" ++ name)%string with (EmptyString ++ String "/" name)%string.
    rewrite (lastIndexOf_from_last "/" EmptyString name Hname). reflexivity.
Qed.

Lemma getFolderPath_directory_witness :
  getFolderPath ("notes/daily" ++ "/" ++ "x.md") = "notes/daily".
Proof.
  destruct (getFolderPath_directory "notes/daily" "x.md") as [H _];
    [reflexivity|].
  apply H. discriminate.
Defined.

Lemma existsb_eqb_In (x : string) (l : list string) :
  existsb (String.eqb x) l = true ↔ In x l.
Proof.
  rewrite existsb_exists. split.
  - intros (y & Hy & E). apply String.eqb_eq in E. subst. exact Hy.
  - intros H. exists x. split; [exact H | apply String.eqb_refl].
Qed.

Lemma distinct_acc (xs seen : list string) :
  NoDup seen →
  let r := fold_left (fun seen x => if existsb (String.eqb x) seen then seen
                                    else (seen ++ [x])%list) xs seen in
  NoDup r ∧ ∀ y, In y r ↔ In y seen ∨ In y xs.
Proof.
  revert seen. induction xs as [|x xs IH]; intros seen Hnd; simpl.
  - split; [exact Hnd | intros y; tauto].
  - destruct (existsb (String.eqb x) seen) eqn:E.
    + destruct (IH seen Hnd) as [H1 H2]. split; [exact H1|].
      intros y. rewrite H2. apply existsb_eqb_In in E.
      split; [tauto | intros [H | [<- | H]]; auto].
    + assert (Hx : ¬ In x seen).
      { intros H. apply existsb_eqb_In in H. congruence. }
      destruct (IH (seen ++ [x])%list) as [H1 H2].
      { apply NoDup_app. split; [exact Hnd|]. split.
        - intros y Hy Hy'. apply list_elem_of_In in Hy, Hy'.
          destruct Hy' as [<- | []]. contradiction.
        - apply NoDup_singleton. }
      split; [exact H1|]. intros y. rewrite H2, in_app_iff. simpl. tauto.
Qed.

Lemma distinct_spec (xs : list string) :
  NoDup (JsString.distinct xs) ∧ ∀ y, In y (JsString.distinct xs) ↔ In y xs.
Proof.
  destruct (distinct_acc xs [] NoDup_nil_2) as [H1 H2].
  split; [exact H1|]. intros y. unfold JsString.distinct. rewrite H2.
  simpl. tauto.
Qed.

Lemma insertSorted_perm (x : string) (l : list string) :
  Permutation (JsString.insertSorted x l) (x :: l).
Proof.
  induction l as [|y l IH]; simpl; [reflexivity|].
  destruct (String.leb x y); [reflexivity|].
  rewrite IH. apply perm_swap.
Qed.

Lemma sort_perm (l : list string) : Permutation (JsString.sort l) l.
Proof.
  induction l as [|x l IH]; simpl; [reflexivity|].
  rewrite insertSorted_perm. constructor. exact IH.
Qed.

Lemma insertSorted_ascending (x : string) (l : list string) :
  ascending l → ascending (JsString.insertSorted x l).
Proof.
  unfold ascending. induction l as [|y l IH]; intros Hs; simpl.
  - repeat constructor.
  - destruct (String.leb x y) eqn:E.
    + constructor; [exact Hs | constructor; exact E].
    + apply Sorted_inv in Hs as [Hs Hhd].
      constructor; [apply IH; exact Hs|].
      destruct l as [|z l]; simpl.
      * constructor. destruct (String.leb_total x y) as [H | H]; congruence.
      * destruct (String.leb x z).
        -- constructor. destruct (String.leb_total x y) as [H | H]; congruence.
        -- apply HdRel_inv in Hhd. constructor. exact Hhd.
Qed.

Lemma sort_ascending (l : list string) : ascending (JsString.sort l).
Proof.
  induction l as [|x l IH]; simpl; [constructor|].
  apply insertSorted_ascending. exact IH.
Qed.

Lemma sort_distinct_spec (xs : list string) :
  ascending (JsString.sort (JsString.distinct xs)) ∧
  NoDup (JsString.sort (JsString.distinct xs)) ∧
  ∀ y, In y (JsString.sort (JsString.distinct xs)) ↔ In y xs.
Proof.
  destruct (distinct_spec xs) as [Hnd Hin].
  split; [apply sort_ascending|]. split.
  - rewrite sort_perm. exact Hnd.
  - intros y. rewrite <- Hin. split; apply Permutation_in;
      [apply sort_perm | symmetry; apply sort_perm].
Qed.

(** X11.  [getUniqueFolders] lists the folders of the graph's nodes in
    ascending order, each once: a string is listed exactly when it is the
    folder of some node; without data the list is empty. *)
Theorem getUniqueFolders_sorted_unique (data : GraphData) :
  ascending (getUniqueFolders (Some data)) ∧
  NoDup (getUniqueFolders (Some data)) ∧
  (∀ f, In f (getUniqueFolders (Some data)) ↔
        ∃ n, In n (nodes data) ∧ getFolderPath (path n) = f) ∧
  getUniqueFolders None = [].
Proof.
  unfold getUniqueFolders.
  destruct (sort_distinct_spec
              (map (fun n => getFolderPath (path n)) (nodes data)))
    as (Hs & Hnd & Hin).
  repeat split; try assumption.
  - intros H. apply Hin in H. apply in_map_iff in H as (n & Hf & Hn). eauto.
  - intros (n & Hn & Hf). apply Hin. apply in_map_iff. eauto.
Qed.

Example getUniqueFolders_sample :
  getUniqueFolders (Some foldered) = ["/"; "work"].
Proof. vm_compute. reflexivity. Qed.


(** ** The caches over time *)

Lemma fresh_ltb (a b : Z) : a < b → (a <? b) = true.
Proof. intros H. apply Z.ltb_lt. exact H. Qed.

(** X13.  What a graph response stores is what later calls get back: after
    [fetchGraph] has stored a response at time [t0], a call at a time
    [t] with [t - t0 < 60000], from any hook instance with no fetch in
    progress, is served that same graph without a backend call; likewise a
    local-graph response that was committed is served to any later call for
    the same center and depth. *)
Theorem graph_response_is_served_within_ttl
    (d : GraphData) (t0 t : Z) (graphCache : gmap string CacheEntry)
    (gh gh' : GraphHook) (lh lh' : LocalHook) (center : string) (depth : Z) :
  t - t0 < 60000 →
  fetchInProgressRef gh' = false →
  center ≠ EmptyString →
  currentPathRef lh = Some center →
  (snd (fetchGraph_start t (fst (fetchGraph_resolve d t0 graphCache gh)) gh')
   = CacheHit ∧
   rawData (fst (fetchGraph_start t (fst (fetchGraph_resolve d t0 graphCache gh)) gh'))
   = Some d) ∧
  (snd (fetchLocalGraph_start (Some center) depth t
          (fst (fetchLocalGraph_resolve center depth d t0 graphCache lh)) lh')
   = CacheHit ∧
   l_rawData (fst (fetchLocalGraph_start (Some center) depth t
          (fst (fetchLocalGraph_resolve center depth d t0 graphCache lh)) lh'))
   = Some d).
Proof.
  intros Ht Hp Hc Href. split.
  - unfold fetchGraph_resolve, fetchGraph_start. simpl.
    rewrite Hp, lookup_insert_eq. simpl. unfold UseGraph.CACHE_TTL.
    rewrite (fresh_ltb _ _ Ht). auto.
  - unfold fetchLocalGraph_resolve, isCurrent.
    rewrite bool_decide_eq_true_2 by exact Href. simpl.
    unfold fetchLocalGraph_start. rewrite (truthy_Some _ Hc). simpl.
    rewrite lookup_insert_eq. simpl. unfold UseGraph.CACHE_TTL.
    rewrite (fresh_ltb _ _ Ht). auto.
Qed.

Lemma graph_response_is_served_within_ttl_witness :
  snd (fetchGraph_start 59999 (fst (fetchGraph_resolve linked 0 ∅ initGraphHook))
         initGraphHook) = CacheHit.
Proof.
  destruct (graph_response_is_served_within_ttl linked 0 59999 ∅
              initGraphHook initGraphHook
              (fst (fetchLocalGraph_start (Some "A.md") 1 0 ∅ initLocalHook))
              initLocalHook "A.md" 1) as [[H _] _].
  - lia.
  - reflexivity.
  - discriminate.
  - reflexivity.
  - exact H.
Defined.

(** X14.  The same for the link lists, from the request on: when
    [fetchLinks] for a path issues the backend commands and their response
    arrives next, the lists are shown and stored, and every call for that
    path within 30000 ms of the response, from any hook instance, is served
    the same two lists without a backend call. *)
Theorem links_response_is_stored_and_served
    (p : string) (bl ol : list UseLinks.LinkInfo) (ts t0 t : Z)
    (linksCache : gmap string UseLinks.CacheEntry)
    (h h' : UseLinks.LinksHook) :
  snd (UseLinks.fetchLinks_start (Some p) ts linksCache h) = Invoked →
  t - t0 < 30000 →
  let h1 := fst (UseLinks.fetchLinks_start (Some p) ts linksCache h) in
  let r := UseLinks.fetchLinks_resolve p bl ol t0 linksCache h1 in
  (UseLinks.backlinks (snd r) = bl ∧ UseLinks.outgoingLinks (snd r) = ol ∧
   UseLinks.isLoading (snd r) = false ∧ UseLinks.error (snd r) = None) ∧
  (snd (UseLinks.fetchLinks_start (Some p) t (fst r) h') = CacheHit ∧
   UseLinks.backlinks (fst (UseLinks.fetchLinks_start (Some p) t (fst r) h')) = bl ∧
   UseLinks.outgoingLinks (fst (UseLinks.fetchLinks_start (Some p) t (fst r) h')) = ol).
Proof.
  intros Hinv Ht. cbv zeta.
  pose proof (fetchLinks_start_Invoked_inv _ _ _ _ Hinv) as [Htruthy _].
  assert (Hh1 : fst (UseLinks.fetchLinks_start (Some p) ts linksCache h)
           = {| UseLinks.backlinks := UseLinks.backlinks h;
                UseLinks.outgoingLinks := UseLinks.outgoingLinks h;
                UseLinks.isLoading := true; UseLinks.error := None;
                UseLinks.currentPathRef := Some p |}).
  { revert Hinv. unfold UseLinks.fetchLinks_start. rewrite Htruthy. simpl.
    destruct (linksCache !! p) as [e|]; [|reflexivity].
    destruct (ts - UseLinks.timestamp e <? UseLinks.CACHE_TTL);
      [discriminate | reflexivity]. }
  rewrite Hh1. unfold UseLinks.fetchLinks_resolve, UseLinks.isCurrent. simpl.
  rewrite bool_decide_eq_true_2 by reflexivity. simpl.
  split; [auto|].
  unfold UseLinks.fetchLinks_start. rewrite Htruthy. simpl.
  rewrite lookup_insert_eq. simpl. unfold UseLinks.CACHE_TTL.
  rewrite (fresh_ltb _ _ Ht). auto.
Qed.

Lemma links_response_is_stored_and_served_witness :
  snd (UseLinks.fetchLinks_start (Some "A.md") 29000
         (fst (UseLinks.fetchLinks_resolve "A.md" [linkFromX] [] 10 ∅
                 (fst (UseLinks.fetchLinks_start (Some "A.md") 0 ∅
                         UseLinks.initLinksHook))))
         UseLinks.initLinksHook) = CacheHit.
Proof.
  destruct (links_response_is_stored_and_served "A.md" [linkFromX] [] 0 10 29000
              ∅ UseLinks.initLinksHook UseLinks.initLinksHook)
    as [_ [H _]].
  - reflexivity.
  - lia.
  - exact H.
Defined.

(** *** Cache keys *)

Lemma string_of_uint_noColon (d : Decimal.uint) :
  allChars notColon (NilEmpty.string_of_uint d) = true.
Proof. induction d; simpl; auto. Qed.

Lemma string_of_uint_inj (d d' : Decimal.uint) :
  NilEmpty.string_of_uint d = NilEmpty.string_of_uint d' → d = d'.
Proof.
  intros H. pose proof (NilEmpty.usu d) as H1. rewrite H, NilEmpty.usu in H1.
  congruence.
Qed.

Lemma string_of_uint_head (d : Decimal.uint) (s : string) :
  NilEmpty.string_of_uint d ≠ String "-" s.
Proof. destruct d; simpl; discriminate. Qed.

Lemma ofZ_noColon (z : Z) : allChars notColon (JsString.ofZ z) = true.
Proof.
  destruct z; simpl; [reflexivity | apply string_of_uint_noColon |].
  change ("-" ++ NilEmpty.string_of_uint (Pos.to_uint p))%string
    with (String "-" (NilEmpty.string_of_uint (Pos.to_uint p))).
  simpl. apply string_of_uint_noColon.
Qed.

Lemma ofZ_inj (z z' : Z) : JsString.ofZ z = JsString.ofZ z' → z = z'.
Proof.
  assert (Hzero : ∀ p, NilEmpty.string_of_uint (Pos.to_uint p) ≠ "0").
  { intros p H. apply (Unsigned.to_uint_nonzero p).
    apply string_of_uint_inj. exact H. }
  destruct z as [|p|p], z' as [|q|q]; simpl; intros H; try reflexivity.
  - symmetry in H. apply Hzero in H. contradiction.
  - discriminate H.
  - apply Hzero in H. contradiction.
  - apply string_of_uint_inj, Unsigned.to_uint_inj in H. congruence.
  - apply string_of_uint_head in H. contradiction.
  - discriminate H.
  - symmetry in H. apply string_of_uint_head in H. contradiction.
  - injection H as H. apply string_of_uint_inj, Unsigned.to_uint_inj in H.
    congruence.
Qed.

Lemma split_at_last_colon (c1 c2 n1 n2 : string) :
  allChars notColon n1 = true → allChars notColon n2 = true →
  (c1 ++ String ":" n1)%string = (c2 ++ String ":" n2)%string →
  c1 = c2 ∧ n1 = n2.
Proof.
  intros H1 H2. revert c2.
  assert (Hno : ∀ (a b n : string),
            allChars notColon n = true → n ≠ (a ++ String ":" b)%string).
  { intros a b n Hn Heq. subst n. rewrite allChars_app in Hn.
    apply andb_true_iff in Hn as [_ Hn]. simpl in Hn. discriminate. }
  induction c1 as [|x c1 IH]; intros c2 Heq.
  - rewrite app_empty in Heq. destruct c2 as [|y c2].
    + rewrite app_empty in Heq. injection Heq as ->. auto.
    + rewrite app_cons in Heq. injection Heq as _ Heq.
      exfalso. exact (Hno _ _ _ H1 Heq).
  - rewrite app_cons in Heq. destruct c2 as [|y c2].
    + rewrite app_empty in Heq. injection Heq as _ Heq.
      exfalso. exact (Hno _ _ _ H2 (eq_sym Heq)).
    + rewrite app_cons in Heq. injection Heq as -> Heq.
      destruct (IH _ Heq) as [-> ->]. auto.
Qed.

(** X15.  Local-graph cache keys never collide: two keys are equal only for
    the same center and the same depth, and no key equals the key [full] of
    the whole graph. *)
Theorem cacheKey_injective (c1 c2 : string) (d1 d2 : Z) :
  cacheKey c1 d1 = cacheKey c2 d2 →
  (c1 = c2 ∧ d1 = d2) ∧ cacheKey c1 d1 ≠ "full".
Proof.
  intros H. split.
  - unfold cacheKey in H.
    change ("local:" ++ c1 ++ ":" ++ JsString.ofZ d1)%string
      with ("local:" ++ (c1 ++ String ":" (JsString.ofZ d1)))%string in H.
    change ("local:" ++ c2 ++ ":" ++ JsString.ofZ d2)%string
      with ("local:" ++ (c2 ++ String ":" (JsString.ofZ d2)))%string in H.
    injection H as H.
    apply split_at_last_colon in H as [-> Hd]; auto using ofZ_noColon.
    apply ofZ_inj in Hd. auto.
  - unfold cacheKey. discriminate.
Qed.

Lemma cacheKey_injective_witness :
  ("A.md" = "A.md" ∧ 2 = 2) ∧ cacheKey "A.md" 2 ≠ "full".
Proof. apply (cacheKey_injective "A.md" "A.md" 2 2). reflexivity. Defined.

(** *** Refresh, settling and late responses *)

(** X16.  [refresh] always goes to the backend: the entry of the key is
    deleted first, so for a selected path (links, local graph) the commands
    are issued whatever the cache held; for the full graph they are issued
    unless a fetch of the instance is in progress, in which case the call
    returns at the guard with the entry already deleted. *)
Theorem refresh_bypasses_the_cache
    (now : Z) (graphCache : gmap string CacheEntry)
    (linksCache : gmap string UseLinks.CacheEntry)
    (gh : GraphHook) (lh : LocalHook) (kh : UseLinks.LinksHook)
    (center path : string) (depth : Z) :
  center ≠ EmptyString → path ≠ EmptyString →
  (snd (snd (refresh_start now graphCache gh))
   = (if fetchInProgressRef gh then Skipped else Invoked) ∧
   fst (refresh_start now graphCache gh) !! "full" = None) ∧
  snd (snd (localRefresh_start (Some center) depth now graphCache lh)) = Invoked ∧
  snd (snd (UseLinks.refresh_start (Some path) now linksCache kh)) = Invoked.
Proof.
  intros Hc Hp. repeat split.
  - unfold refresh_start, fetchGraph_start. simpl.
    destruct (fetchInProgressRef gh); [reflexivity|].
    rewrite lookup_delete_eq. reflexivity.
  - unfold refresh_start. simpl. apply lookup_delete_eq.
  - unfold localRefresh_start, fetchLocalGraph_start.
    rewrite (truthy_Some _ Hc). simpl. rewrite lookup_delete_eq. reflexivity.
  - unfold UseLinks.refresh_start, UseLinks.fetchLinks_start.
    rewrite (truthy_Some _ Hp). simpl. rewrite lookup_delete_eq. reflexivity.
Qed.

Lemma refresh_bypasses_the_cache_witness :
  snd (snd (UseLinks.refresh_start (Some "A.md") 1001 sampleLinksCache
              UseLinks.initLinksHook)) = Invoked.
Proof.
  destruct (refresh_bypasses_the_cache 1001 sampleGraphCache sampleLinksCache
              initGraphHook initLocalHook UseLinks.initLinksHook "A.md" "A.md" 2)
    as (_ & _ & H); [discriminate | discriminate | exact H].
Defined.

(** X17.  A full-graph fetch always settles: after a call that issued the
    backend command, both the fulfilled and the rejected continuation clear
    the loading flag and the in-flight mark (so the next call is not turned
    away); a response replaces the graph and leaves no error, a failure
    keeps the graph that was shown and reports the message of the error, or
    the fixed text when the thrown value is not an error. *)
Theorem fetchGraph_settles
    (now now' : Z) (graphCache : gmap string CacheEntry) (h : GraphHook)
    (d : GraphData) (err : option string) :
  snd (fetchGraph_start now graphCache h) = Invoked →
  let h1 := fst (fetchGraph_start now graphCache h) in
  let ok := snd (fetchGraph_resolve d now' graphCache h1) in
  let ko := fetchGraph_reject err h1 in
  (rawData ok = Some d ∧ error ok = None ∧
   isLoading ok = false ∧ fetchInProgressRef ok = false) ∧
  (rawData ko = rawData h ∧
   error ko = Some (default "Failed to fetch graph data" err) ∧
   isLoading ko = false ∧ fetchInProgressRef ko = false).
Proof.
  intros Hinv. cbv zeta.
  assert (Hh1 : fst (fetchGraph_start now graphCache h)
           = {| rawData := rawData h; isLoading := true; error := None;
                fetchInProgressRef := true |}).
  { revert Hinv. unfold fetchGraph_start.
    destruct (fetchInProgressRef h); [discriminate|].
    destruct (graphCache !! "full") as [e|]; [|reflexivity].
    destruct (now - UseGraph.timestamp e <? UseGraph.CACHE_TTL);
      [discriminate | reflexivity]. }
  rewrite Hh1. simpl. auto 10.
Qed.

Lemma fetchGraph_settles_witness :
  fetchInProgressRef
    (fetchGraph_reject None (fst (fetchGraph_start 0 ∅ initGraphHook))) = false.
Proof.
  destruct (fetchGraph_settles 0 1 ∅ initGraphHook linked None)
    as [_ (_ & _ & _ & H)]; [reflexivity | exact H].
Defined.

(** X18.  Once a request for another path has been issued, a late answer
    for the earlier path is dropped whole: neither its data nor its error
    changes the hook state, and its data is not written to the cache.
    This holds for the link lists and for the local graph. *)
Theorem superseded_by_a_miss_is_discarded
    (p q : string) (now now' : Z)
    (linksCache : gmap string UseLinks.CacheEntry) (kh : UseLinks.LinksHook)
    (graphCache : gmap string CacheEntry) (lh : LocalHook)
    (bl ol : list UseLinks.LinkInfo) (d : GraphData) (depth depth' : Z)
    (err : option string) :
  q ≠ p →
  snd (UseLinks.fetchLinks_start (Some q) now linksCache kh) = Invoked →
  snd (fetchLocalGraph_start (Some q) depth now graphCache lh) = Invoked →
  let k1 := fst (UseLinks.fetchLinks_start (Some q) now linksCache kh) in
  let l1 := fst (fetchLocalGraph_start (Some q) depth now graphCache lh) in
  UseLinks.fetchLinks_resolve p bl ol now' linksCache k1 = (linksCache, k1) ∧
  UseLinks.fetchLinks_reject p err k1 = k1 ∧
  fetchLocalGraph_resolve p depth' d now' graphCache l1 = (graphCache, l1) ∧
  fetchLocalGraph_reject p err l1 = l1.
Proof.
  intros Hne Hk Hl. cbv zeta.
  assert (Hkref : UseLinks.currentPathRef
                    (fst (UseLinks.fetchLinks_start (Some q) now linksCache kh))
                  = Some q).
  { revert Hk. unfold UseLinks.fetchLinks_start.
    destruct (JsString.truthy (Some q)); simpl; [|discriminate].
    destruct (linksCache !! q) as [e|]; [|reflexivity].
    destruct (now - UseLinks.timestamp e <? UseLinks.CACHE_TTL);
      [discriminate | reflexivity]. }
  assert (Hlref : currentPathRef
                    (fst (fetchLocalGraph_start (Some q) depth now graphCache lh))
                  = Some q).
  { revert Hl. unfold fetchLocalGraph_start.
    destruct (JsString.truthy (Some q)); simpl; [|discriminate].
    destruct (graphCache !! cacheKey q depth) as [e|]; [|reflexivity].
    destruct (now - UseGraph.timestamp e <? UseGraph.CACHE_TTL);
      [discriminate | reflexivity]. }
  assert (Hq : Some q ≠ Some p) by congruence.
  repeat split.
  - apply fetchLinks_resolve_guard. rewrite Hkref. exact Hq.
  - unfold UseLinks.fetchLinks_reject, UseLinks.isCurrent. rewrite Hkref.
    rewrite bool_decide_eq_false_2 by exact Hq. reflexivity.
  - apply fetchLocalGraph_resolve_guard. rewrite Hlref. exact Hq.
  - unfold fetchLocalGraph_reject, isCurrent. rewrite Hlref.
    rewrite bool_decide_eq_false_2 by exact Hq. reflexivity.
Qed.

Lemma superseded_by_a_miss_is_discarded_witness :
  UseLinks.fetchLinks_resolve "A.md" [linkFromX] [] 9 ∅
    (fst (UseLinks.fetchLinks_start (Some "B.md") 5 ∅ UseLinks.initLinksHook))
  = (∅, fst (UseLinks.fetchLinks_start (Some "B.md") 5 ∅ UseLinks.initLinksHook)).
Proof.
  destruct (superseded_by_a_miss_is_discarded "A.md" "B.md" 5 9
              ∅ UseLinks.initLinksHook ∅ initLocalHook
              [linkFromX] [] linked 1 1 None) as [H _].
  - discriminate.
  - reflexivity.
  - reflexivity.
  - exact H.
Defined.

(** *** What the link cache can hold *)

Lemma linksRun_snoc (evs : list UseLinks.LinksEvent) (ev : UseLinks.LinksEvent) :
  UseLinks.linksRun (evs ++ [ev])
  = UseLinks.linksStep (UseLinks.linksRun evs) ev.
Proof. unfold UseLinks.linksRun. rewrite fold_left_app. reflexivity. Qed.

Lemma fetchLinks_start_ref (path : option string) (now : Z)
    (lc : gmap string UseLinks.CacheEntry) (h : UseLinks.LinksHook) (p : string) :
  UseLinks.currentPathRef (fst (UseLinks.fetchLinks_start path now lc h)) = Some p →
  UseLinks.currentPathRef h = Some p ∨ (path = Some p ∧ p ≠ EmptyString).
Proof.
  unfold UseLinks.fetchLinks_start.
  destruct (JsString.truthy path) eqn:Ht; simpl; [|auto].
  assert (Hp : path = Some p → p ≠ EmptyString).
  { intros -> ->. discriminate Ht. }
  destruct (lc !! default EmptyString path) as [e|]; simpl.
  - destruct (now - UseLinks.timestamp e <? UseLinks.CACHE_TTL); simpl; auto.
  - auto.
Qed.

(** The invariant behind X19: the ref holds a requested, non-empty path, and
    every cache entry is the payload of a response for its key. *)
Lemma linksRun_invariant (evs : list UseLinks.LinksEvent) :
  (∀ p, UseLinks.currentPathRef (UseLinks.hook (UseLinks.linksRun evs)) = Some p →
        p ≠ EmptyString ∧ ∃ now, In (UseLinks.Fetch (Some p) now) evs) ∧
  (∀ p e, UseLinks.linksCache (UseLinks.linksRun evs) !! p = Some e →
          p ≠ EmptyString ∧
          (∃ now, In (UseLinks.Fetch (Some p) now) evs) ∧
          In (UseLinks.Resolved p (UseLinks.c_backlinks e)
                (UseLinks.c_outgoingLinks e) (UseLinks.timestamp e)) evs).
Proof.
  induction evs as [|ev evs [IHref IHcache]] using rev_ind.
  - split.
    + intros p H. discriminate H.
    + intros p e H. unfold UseLinks.linksRun in H. simpl in H.
      rewrite lookup_empty in H. discriminate H.
  - rewrite linksRun_snoc.
    set (w := UseLinks.linksRun evs) in *.
    assert (Hmono : ∀ x, In x evs → In x (evs ++ [ev])).
    { intros x Hx. apply in_app_iff. auto. }
    assert (Hlast : In ev (evs ++ [ev])).
    { apply in_app_iff. right. left. reflexivity. }
    destruct ev as [path now | p' bl ol now | p' err]; simpl.
    + (* a call of fetchLinks *)
      destruct (UseLinks.fetchLinks_start path now (UseLinks.linksCache w)
                  (UseLinks.hook w)) as [h out] eqn:Hs. simpl. split.
      * intros p Hp.
        assert (Hh : h = fst (UseLinks.fetchLinks_start path now
                                (UseLinks.linksCache w) (UseLinks.hook w)))
          by (rewrite Hs; reflexivity).
        rewrite Hh in Hp. apply fetchLinks_start_ref in Hp as [Hp | [-> Hne]].
        -- destruct (IHref p Hp) as (Hne & t & Ht).
           split; [exact Hne | exists t; auto].
        -- split; [exact Hne | exists now; exact Hlast].
      * intros p e He. destruct (IHcache p e He) as (Hne & (t & Ht) & Hr).
           split; [exact Hne|]. split; [exists t; auto | auto].
    + (* a response *)
      unfold UseLinks.fetchLinks_resolve, UseLinks.isCurrent.
      destruct (bool_decide (UseLinks.currentPathRef (UseLinks.hook w) = Some p'))
        eqn:Hcur; simpl.
      * apply bool_decide_eq_true in Hcur.
        destruct (IHref p' Hcur) as (Hne' & t' & Ht'). split.
        -- intros p Hp. destruct (IHref p Hp) as (Hne & t & Ht).
           split; [exact Hne | exists t; auto].
        -- intros p e. destruct (decide (p' = p)) as [<- | Hpp].
           ++ rewrite lookup_insert_eq. intros [= <-]. simpl.
              split; [exact Hne'|]. split; [exists t'; auto | exact Hlast].
           ++ rewrite lookup_insert_ne by exact Hpp. intros He.
              destruct (IHcache p e He) as (Hne & (t & Ht) & Hr).
           split; [exact Hne|]. split; [exists t; auto | auto].
      * split.
        -- intros p Hp. destruct (IHref p Hp) as (Hne & t & Ht).
           split; [exact Hne | exists t; auto].
        -- intros p e He.
           destruct (IHcache p e He) as (Hne & (t & Ht) & Hr).
           split; [exact Hne|]. split; [exists t; auto | auto].
    + (* a failure *)
      split.
      * intros p Hp.
        assert (Hp' : UseLinks.currentPathRef (UseLinks.hook w) = Some p).
        { revert Hp. unfold UseLinks.fetchLinks_reject.
          destruct (UseLinks.isCurrent _ _); simpl; auto. }
        destruct (IHref p Hp') as (Hne & t & Ht).
        split; [exact Hne | exists t; auto].
      * intros p e He. destruct (IHcache p e He) as (Hne & (t & Ht) & Hr).
           split; [exact Hne|]. split; [exists t; auto | auto].
Qed.

(** X19.  Whatever sequence of calls, responses and failures a [useLinks]
    instance goes through, every entry of the link cache is the payload of
    a response for its own key: the key is a non-empty path that was
    requested, and the stored lists and timestamp are those of a response
    for that path. *)
Theorem links_cache_entries_come_from_responses
    (evs : list UseLinks.LinksEvent) (p : string) (e : UseLinks.CacheEntry) :
  UseLinks.linksCache (UseLinks.linksRun evs) !! p = Some e →
  p ≠ EmptyString ∧
  (∃ now, In (UseLinks.Fetch (Some p) now) evs) ∧
  In (UseLinks.Resolved p (UseLinks.c_backlinks e) (UseLinks.c_outgoingLinks e)
        (UseLinks.timestamp e)) evs.
Proof. apply (linksRun_invariant evs). Qed.

Lemma links_cache_entries_come_from_responses_witness :
  In (UseLinks.Resolved "B.md" [linkFromY] [] 10)
     (linksBackAndForth (UseLinks.Fetch None 50)).
Proof.
  destruct (links_cache_entries_come_from_responses
              (linksBackAndForth (UseLinks.Fetch None 50)) "B.md"
              {| UseLinks.c_backlinks := [linkFromY];
                 UseLinks.c_outgoingLinks := [];
                 UseLinks.timestamp := 10 |}) as (_ & _ & H).
  - vm_compute. reflexivity.
  - exact H.
Defined.

(** ** The matcher and the scans built on it *)

Lemma string_app_assoc (a b c : string) :
  ((a ++ b) ++ c)%string = (a ++ (b ++ c))%string.
Proof.
  induction a as [|x a IH]; [reflexivity|].
  rewrite !app_cons, IH. reflexivity.
Qed.

Lemma string_length_app (a b : string) :
  String.length (a ++ b) = (String.length a + String.length b)%nat.
Proof.
  induction a as [|x a IH]; [reflexivity|].
  rewrite app_cons. simpl. rewrite IH. reflexivity.
Qed.

Lemma string_app_empty_r (a : string) : (a ++ EmptyString)%string = a.
Proof.
  induction a as [|x a IH]; [reflexivity|]. rewrite app_cons, IH. reflexivity.
Qed.

Lemma advancedBy_refl (st : mstate) : advancedBy EmptyString st st.
Proof. split; [reflexivity | simpl; lia]. Qed.

Lemma advancedBy_trans (w1 w2 : string) (st st1 st2 : mstate) :
  advancedBy w1 st st1 → advancedBy w2 st1 st2 → advancedBy (w1 ++ w2) st st2.
Proof.
  intros [H1 P1] [H2 P2]. split.
  - rewrite H1, H2. symmetry. apply string_app_assoc.
  - rewrite P2, P1, string_length_app. lia.
Qed.

Lemma starGreedy_reads {R : Type} (p : ascii → bool) (s : string) :
  ∀ i pv (k : nat → option ascii → string → option R) x,
    starGreedy p s i pv k = Some x →
    ∃ w s1 pv1, s = (w ++ s1)%string ∧
                k (i + String.length w)%nat pv1 s1 = Some x.
Proof.
  induction s as [|c s IH]; intros i pv k x H; simpl in H.
  - exists EmptyString, EmptyString, pv. rewrite Nat.add_0_r. auto.
  - assert (Hhere : k i pv (String c s) = Some x →
              ∃ w s1 pv1, String c s = (w ++ s1)%string ∧
                          k (i + String.length w)%nat pv1 s1 = Some x).
    { intros Hk. exists EmptyString, (String c s), pv.
      rewrite Nat.add_0_r. auto. }
    destruct (p c); [|auto].
    destruct (starGreedy p s (S i) (Some c) k) as [y|] eqn:E; [|auto].
    injection H as ->. apply IH in E as (w & s1 & pv1 & -> & Hk).
    exists (String c w), s1, pv1. rewrite app_cons. split; [reflexivity|].
    simpl. rewrite Nat.add_succ_r. exact Hk.
Qed.

Lemma starLazy_reads {R : Type} (p : ascii → bool) (s : string) :
  ∀ i pv (k : nat → option ascii → string → option R) x,
    starLazy p s i pv k = Some x →
    ∃ w s1 pv1, s = (w ++ s1)%string ∧
                k (i + String.length w)%nat pv1 s1 = Some x.
Proof.
  induction s as [|c s IH]; intros i pv k x H; simpl in H.
  - destruct (k i pv EmptyString) eqn:E; [|discriminate].
    exists EmptyString, EmptyString, pv. rewrite Nat.add_0_r.
    split; [reflexivity | congruence].
  - destruct (k i pv (String c s)) eqn:E.
    + exists EmptyString, (String c s), pv. rewrite Nat.add_0_r.
      split; [reflexivity | congruence].
    + destruct (p c); [|discriminate].
      apply IH in H as (w & s1 & pv1 & -> & Hk).
      exists (String c w), s1, pv1. rewrite app_cons. split; [reflexivity|].
      simpl. rewrite Nat.add_succ_r. exact Hk.
Qed.

(** Whenever the matcher succeeds, the continuation was entered in a state
    reached by reading a prefix of the remaining text. *)
Lemma rmatch_reads {R : Type} (r : regex) :
  ∀ (st : mstate) (k : mstate → option R) (x : R),
    rmatch r st k = Some x →
    ∃ w st1, advancedBy w st st1 ∧ k st1 = Some x.
Proof.
  induction r as [c | p | r1 IH1 r2 IH2 | r1 IH1 r2 IH2 | r1 IH1 | p | p | p
                 | n r1 IH1 | | | ];
    intros st k x H; simpl in H.
  - destruct st as [i pv s cs]. simpl in *.
    destruct s as [|a s]; [discriminate|].
    destruct (Ascii.eqb a c); [|discriminate].
    eexists (String a EmptyString), _. split; [|exact H].
    split; simpl; [reflexivity | lia].
  - destruct st as [i pv s cs]. simpl in *.
    destruct s as [|a s]; [discriminate|].
    destruct (p a); [|discriminate].
    eexists (String a EmptyString), _. split; [|exact H].
    split; simpl; [reflexivity | lia].
  - apply IH1 in H as (w1 & st1 & H1 & H).
    apply IH2 in H as (w2 & st2 & H2 & H).
    exists (w1 ++ w2)%string, st2. split; [|exact H].
    eapply advancedBy_trans; eassumption.
  - destruct (rmatch r1 st k) eqn:E.
    + injection H as ->. apply IH1 in E. exact E.
    + apply IH2 in H. exact H.
  - destruct (rmatch r1 st k) eqn:E.
    + injection H as ->. apply IH1 in E. exact E.
    + exists EmptyString, st. split; [apply advancedBy_refl | exact H].
  - destruct st as [i pv s cs]. simpl in *.
    apply starGreedy_reads in H as (w & s1 & pv1 & -> & H).
    eexists w, _. split; [|exact H]. split; reflexivity.
  - destruct st as [i pv s cs]. simpl in *.
    destruct s as [|a s]; [discriminate|].
    destruct (p a); [|discriminate].
    apply starGreedy_reads in H as (w & s1 & pv1 & -> & H).
    eexists (String a w), _. split; [|exact H].
    split; simpl; [reflexivity | lia].
  - destruct st as [i pv s cs]. simpl in *.
    apply starLazy_reads in H as (w & s1 & pv1 & -> & H).
    eexists w, _. split; [|exact H]. split; reflexivity.
  - apply IH1 in H as (w & st1 & [Hr Hp] & H).
    eexists w, _. split; [|exact H]. split; simpl; assumption.
  - destruct (pos st =? 0)%nat; [|discriminate].
    exists EmptyString, st. split; [apply advancedBy_refl | exact H].
  - exists EmptyString, st. split; [apply advancedBy_refl|].
    destruct (prev st) as [c|]; [|exact H].
    destruct (isLineTerminator c); [exact H | discriminate].
  - exists EmptyString, st. split; [apply advancedBy_refl|].
    destruct (rest st) as [|c s]; [exact H|].
    destruct (isLineTerminator c); [exact H | discriminate].
Qed.

(** A match reported at a position is a prefix of the text there. *)
Lemma matchAt_prefix (r : regex) (s : string) (i : nat) (pv : option ascii)
    (m : MatchResult) :
  matchAt r s i pv = Some m →
  index m = i ∧ ∃ tail, s = (matched m ++ tail)%string.
Proof.
  unfold matchAt. intros H.
  apply rmatch_reads in H as (w & st1 & [Hr Hp] & H). simpl in *.
  injection H as <-. simpl. split; [reflexivity|].
  exists (rest st1). rewrite Hp, Hr.
  replace (i + String.length w - i)%nat with (String.length w) by lia.
  rewrite substring_prefix. reflexivity.
Qed.

Lemma dropString_app (a b : string) :
  dropString (String.length a) (a ++ b) = b.
Proof.
  induction a as [|x a IH]; [destruct b; reflexivity|].
  rewrite app_cons. simpl. exact IH.
Qed.

(** Rendering the segments of a scan with every match put back as it was
    gives the scanned text (after the characters still to be skipped). *)
Lemma render_scanFrom (r : regex) (s : string) :
  ∀ i pv skip,
    render matched (scanFrom r s i pv skip) = dropString skip s.
Proof.
  induction s as [|c s IH]; intros i pv skip.
  - destruct skip; simpl; [|reflexivity].
    destruct (matchAt r EmptyString i pv) as [m|] eqn:E; [|reflexivity].
    apply matchAt_prefix in E as (_ & tail & E). simpl.
    destruct (matched m); [reflexivity | rewrite app_cons in E; discriminate].
  - destruct skip; simpl; [|apply IH].
    destruct (matchAt r (String c s) i pv) as [m|] eqn:E.
    + apply matchAt_prefix in E as (_ & tail & E). simpl.
      destruct (matched m) as [|x w] eqn:Em; simpl.
      * rewrite IH. reflexivity.
      * rewrite app_cons in E. injection E as <- ->.
        rewrite app_cons. f_equal. rewrite IH. rewrite dropString_app.
        reflexivity.
    + simpl. rewrite IH. reflexivity.
Qed.

Lemma renderFirst_matched (segs : list Segment) :
  renderFirst matched segs = render matched segs.
Proof.
  induction segs as [|[c|m] segs IH]; simpl; [reflexivity | |reflexivity].
  rewrite IH. reflexivity.
Qed.

(** X20.  A replacement never loses or reorders the text around the matches:
    for every expression and every text, replacing each match by itself
    ([replaceAll]) or the first match by itself ([replaceFirst]) gives the
    text back unchanged. *)
Theorem replace_by_itself_is_identity (r : regex) (s : string) :
  replaceAll r matched s = s ∧ replaceFirst r matched s = s.
Proof.
  unfold replaceAll, replaceFirst, scan.
  rewrite renderFirst_matched, render_scanFrom. auto.
Qed.

(** *** Frontmatter *)

Lemma render_no_match (f : MatchResult → string) (r : regex) (s : string) :
  ∀ i pv,
    matchAt r s i pv = None →
    (∀ s' i' pv', matchAt r s' (S i') pv' = None) →
    render f (scanFrom r s i pv 0) = s.
Proof.
  induction s as [|c s IH]; intros i pv H0 Hlater; simpl; rewrite H0.
  - reflexivity.
  - simpl. f_equal. apply IH; [apply Hlater | exact Hlater].
Qed.

Lemma renderFirst_no_match (f : MatchResult → string) (r : regex) (s : string) :
  ∀ i pv,
    matchAt r s i pv = None →
    (∀ s' i' pv', matchAt r s' (S i') pv' = None) →
    renderFirst f (scanFrom r s i pv 0) = s.
Proof.
  induction s as [|c s IH]; intros i pv H0 Hlater; simpl; rewrite H0.
  - reflexivity.
  - simpl. f_equal. apply IH; [apply Hlater | exact Hlater].
Qed.

Lemma frontmatter_only_at_start (s : string) (i : nat) (pv : option ascii) :
  matchAt ReadingView.frontmatterRegex s (S i) pv = None.
Proof. reflexivity. Qed.

Lemma frontmatter_needs_fence (s : string) (pv : option ascii) (m : MatchResult) :
  matchAt ReadingView.frontmatterRegex s 0 pv = Some m →
  ∃ tail, s = ("---" ++ tail)%string ∨ s = ("+++" ++ tail)%string.
Proof.
  unfold matchAt, ReadingView.frontmatterRegex, ReadingView.fenced.
  cbn [rmatch Lit pos rest prev caps Nat.eqb].
  destruct s as [|a [|b [|c tail]]];
    cbn [rmatch Lit pos rest prev caps Nat.eqb]; unfold resume;
    cbn [rmatch Lit pos rest prev caps Nat.eqb].
  - discriminate.
  - destruct (Ascii.eqb a "-"), (Ascii.eqb a "+"); discriminate.
  - destruct (Ascii.eqb a "-"), (Ascii.eqb a "+");
      cbn [rmatch Lit pos rest prev caps]; try discriminate;
      destruct (Ascii.eqb b "-"), (Ascii.eqb b "+"); discriminate.
  - intros H. exists tail.
    destruct (Ascii.eqb a "-") eqn:Ea.
    + destruct (Ascii.eqb b "-") eqn:Eb.
      * destruct (Ascii.eqb c "-") eqn:Ec.
        -- apply Ascii.eqb_eq in Ea, Eb, Ec. subst. left. reflexivity.
        -- apply Ascii.eqb_eq in Ea, Eb. subst. simpl in H. discriminate.
      * apply Ascii.eqb_eq in Ea. subst. simpl in H. discriminate.
    + destruct (Ascii.eqb a "+") eqn:Ea'; [|discriminate].
      destruct (Ascii.eqb b "+") eqn:Eb; [|discriminate].
      destruct (Ascii.eqb c "+") eqn:Ec; [|discriminate].
      apply Ascii.eqb_eq in Ea', Eb, Ec. subst. right. reflexivity.
Qed.

Lemma stripFrontmatter_prefix (content : string) :
  ∃ fm, content = (fm ++ ReadingView.stripFrontmatter content)%string ∧
        (fm ≠ EmptyString →
         ∃ tail, content = ("---" ++ tail)%string ∨
                 content = ("+++" ++ tail)%string).
Proof.
  unfold ReadingView.stripFrontmatter, replaceFirst, scan.
  destruct (matchAt ReadingView.frontmatterRegex content 0 None) as [m|] eqn:E.
  - pose proof (frontmatter_needs_fence _ _ _ E) as Hfence.
    pose proof (matchAt_prefix _ _ _ _ _ E) as (_ & tail & Htail).
    destruct content as [|c s]; cbn [scanFrom]; rewrite E.
    + exists EmptyString. split; [reflexivity | intros H; contradiction].
    + cbn [renderFirst]. rewrite app_empty.
      destruct (matched m) as [|x w] eqn:Em; cbn [String.length].
      * exists EmptyString. cbn [render]. rewrite render_scanFrom.
        split; [reflexivity | intros H; contradiction].
      * exists (String x w). rewrite render_scanFrom.
        rewrite app_cons in Htail. injection Htail as <- ->.
        rewrite dropString_app. split; [reflexivity | intros _; exact Hfence].
  - exists EmptyString. split; [|intros H; contradiction].
    rewrite renderFirst_no_match;
      [reflexivity | exact E | apply frontmatter_only_at_start].
Qed.

(** X21.  [stripFrontmatter] only ever removes a prefix of the content, and
    it removes something only when the content opens with one of the two
    fences [---] and [+++]; any other content is returned unchanged. *)
Theorem stripFrontmatter_removes_a_fenced_prefix (content : string) :
  ∃ fm, content = (fm ++ ReadingView.stripFrontmatter content)%string ∧
        (fm ≠ EmptyString →
         ∃ tail, content = ("---" ++ tail)%string ∨
                 content = ("+++" ++ tail)%string).
Proof. apply stripFrontmatter_prefix. Qed.

(** *** Text that no rewrite touches *)

Lemma render_untouched (f : MatchResult → string) (r : regex)
    (q : ascii → bool) :
  (∀ s i pv, allChars q s = true → matchAt r s i pv = None) →
  ∀ s i pv, allChars q s = true → render f (scanFrom r s i pv 0) = s.
Proof.
  intros Hnone. induction s as [|c s IH]; intros i pv Hq; simpl;
    rewrite (Hnone _ i pv Hq); [reflexivity|].
  simpl. f_equal. apply IH. simpl in Hq. apply andb_true_iff in Hq. tauto.
Qed.

Lemma plainChar_true (c : ascii) :
  plainChar c = true → Ascii.eqb c "[" = false ∧ Ascii.eqb c "#" = false.
Proof.
  unfold plainChar, noneOf. simpl. intros H.
  destruct (Ascii.eqb c "["), (Ascii.eqb c "#"); simpl in H; auto; discriminate.
Qed.

Ltac headChars H :=
  cbn [allChars] in H;
  repeat match type of H with
  | plainChar ?a && _ = true =>
      let Ha := fresh "Ha" in
      apply andb_true_iff in H as [Ha H];
      apply plainChar_true in Ha as [? ?]
  end.

Ltac useHead :=
  repeat match goal with
  | Hx : Ascii.eqb _ _ = false |- _ => rewrite Hx
  end.

Lemma aliasedWikilink_needs_bracket (s : string) (i : nat) (pv : option ascii) :
  allChars plainChar s = true → matchAt ReadingView.aliasedWikilink s i pv = None.
Proof.
  intros H. unfold matchAt, ReadingView.aliasedWikilink.
  cbn [rmatch Lit pos rest prev caps].
  destruct s as [|a s]; [reflexivity|]. headChars H.
  useHead. reflexivity.
Qed.

Lemma plainWikilink_needs_bracket (s : string) (i : nat) (pv : option ascii) :
  allChars plainChar s = true → matchAt ReadingView.plainWikilink s i pv = None.
Proof.
  intros H. unfold matchAt, ReadingView.plainWikilink.
  cbn [rmatch Lit pos rest prev caps].
  destruct s as [|a s]; [reflexivity|]. headChars H.
  useHead. reflexivity.
Qed.

Lemma tagRegex_needs_hash (s : string) (i : nat) (pv : option ascii) :
  allChars plainChar s = true → matchAt ReadingView.tagRegex s i pv = None.
Proof.
  intros H. unfold matchAt, ReadingView.tagRegex.
  cbn [rmatch Lit pos rest prev caps].
  destruct s as [|a [|b s]]; headChars H; unfold resume;
    cbn [rmatch Lit pos rest prev caps].
  - destruct (i =? 0)%nat; reflexivity.
  - useHead.
    destruct (i =? 0)%nat; destruct (isSpace a); reflexivity.
  - useHead.
    useHead.
    destruct (i =? 0)%nat; destruct (isSpace a); reflexivity.
Qed.

Lemma calloutRegex_needs_bracket (s : string) (i : nat) (pv : option ascii) :
  allChars plainChar s = true → matchAt ReadingView.calloutRegex s i pv = None.
Proof.
  intros H. unfold matchAt, ReadingView.calloutRegex.
  cbn [rmatch Lit pos rest prev caps].
  assert (Hk : rmatch
            (Lit "> [!"
               (Seq (Grp 1 (Plus isWord))
                  (Seq (Chr "]")
                     (Seq (Grp 2 (Opt (Cls (oneOf ["-"%char; "+"%char]))))
                        (Seq (Star isSpace) (Seq (Grp 3 (Star dot)) Eol))))))
            {| pos := i; prev := pv; rest := s; caps := [] |}
            (fun st1 => Some {| index := i;
                                matched := String.substring 0 (pos st1 - i) s;
                                groups := caps st1 |}) = None).
  { cbn [rmatch Lit pos rest prev caps].
    destruct s as [|a [|b [|c s]]]; headChars H; unfold resume;
      cbn [rmatch Lit pos rest prev caps]; try reflexivity.
    - destruct (Ascii.eqb a ">"); reflexivity.
    - destruct (Ascii.eqb a ">"); [|reflexivity].
      cbn [rmatch Lit pos rest prev caps]. destruct (Ascii.eqb b " "); reflexivity.
    - destruct (Ascii.eqb a ">"); [|reflexivity].
      cbn [rmatch Lit pos rest prev caps]. destruct (Ascii.eqb b " "); [|reflexivity].
      cbn [rmatch Lit pos rest prev caps].
      useHead. reflexivity. }
  destruct pv as [x|]; [destruct (isLineTerminator x)|]; auto.
Qed.

(** X22.  Plain text passes through [preprocessMarkdown] unchanged: a
    content without opening bracket and hash mark that does not begin with
    a fence character ([-] or [+]) is returned as it is. *)
Theorem preprocessMarkdown_leaves_plain_text (content : string) :
  allChars plainChar content = true →
  startsWithClass fenceChar content = false →
  ReadingView.preprocessMarkdown content = content.
Proof.
  intros Hplain Hfence.
  assert (Hfm : ReadingView.stripFrontmatter content = content).
  { destruct (stripFrontmatter_prefix content) as (fm & Heq & Hf).
    destruct fm as [|x fm]; [rewrite app_empty in Heq; congruence|].
    destruct Hf as (tail & [Ht | Ht]); [discriminate | |];
      rewrite Ht in Hfence; simpl in Hfence; discriminate. }
  unfold ReadingView.preprocessMarkdown. cbv zeta. rewrite Hfm.
  unfold replaceAll, scan.
  rewrite (render_untouched _ _ plainChar aliasedWikilink_needs_bracket) by exact Hplain.
  rewrite (render_untouched _ _ plainChar plainWikilink_needs_bracket) by exact Hplain.
  rewrite (render_untouched _ _ plainChar tagRegex_needs_hash) by exact Hplain.
  rewrite (render_untouched _ _ plainChar calloutRegex_needs_bracket) by exact Hplain.
  reflexivity.
Qed.

Lemma preprocessMarkdown_leaves_plain_text_witness :
  ReadingView.preprocessMarkdown "see (a) - b > c" = "see (a) - b > c".
Proof.
  apply preprocessMarkdown_leaves_plain_text; reflexivity.
Defined.

(** *** Where the matches lie *)

Lemma substring_middle (pre w tail : string) :
  String.substring (String.length pre) (String.length w) (pre ++ w ++ tail) = w.
Proof.
  induction pre as [|x pre IH]; [rewrite app_empty; apply substring_prefix|].
  rewrite app_cons. simpl. exact IH.
Qed.

Lemma matchAt_located (r : regex) (pre s : string) (pv : option ascii)
    (m : MatchResult) :
  matchAt r s (String.length pre) pv = Some m →
  index m = String.length pre ∧ locatedIn (pre ++ s) m.
Proof.
  intros H. apply matchAt_prefix in H as (Hi & tail & ->).
  split; [exact Hi|]. unfold locatedIn. rewrite Hi. split.
  - apply substring_middle.
  - rewrite !string_length_app. lia.
Qed.

Lemma HdRel_from_bound (m : MatchResult) (lb : nat) (ms : list MatchResult) :
  (index m + String.length (matched m) <= lb)%nat → (index m < lb)%nat →
  Forall (fun m' => (lb <= index m')%nat) ms →
  HdRel before m ms.
Proof.
  intros H1 H2 Hall. destruct ms as [|m' ms]; constructor.
  apply Forall_inv in Hall. unfold before. lia.
Qed.

Lemma Forall_bound_weaken (lb lb' : nat) (ms : list MatchResult) :
  (lb' <= lb)%nat →
  Forall (fun m' => (lb <= index m')%nat) ms →
  Forall (fun m' => (lb' <= index m')%nat) ms.
Proof.
  intros Hle H. eapply Forall_impl; [exact H|]. intros m' Hm. simpl in Hm. lia.
Qed.

Lemma snoc_app (pre : string) (c : ascii) (s : string) :
  ((pre ++ String c EmptyString) ++ s)%string = (pre ++ String c s)%string.
Proof. rewrite string_app_assoc. reflexivity. Qed.

Lemma scanFrom_located (r : regex) (s : string) :
  ∀ (pre : string) (pv : option ascii) (skip : nat),
    let ms := hits (scanFrom r s (String.length pre) pv skip) in
    Forall (locatedIn (pre ++ s)) ms ∧
    Forall (fun m => (String.length pre + skip <= index m)%nat) ms ∧
    Sorted before ms.
Proof.
  unfold hits.
  induction s as [|c s IH]; intros pre pv skip; cbv zeta.
  - destruct skip; cbn [scanFrom]; [|repeat constructor].
    destruct (matchAt r EmptyString (String.length pre) pv) as [m|] eqn:E;
      [|repeat constructor].
    apply matchAt_located in E as [Hi Hloc]. simpl.
    split; [constructor; [exact Hloc | constructor]|].
    split; [constructor; [lia | constructor]|].
    constructor; constructor.
  - assert (Hlen : String.length (pre ++ String c EmptyString)
                   = S (String.length pre)).
    { rewrite string_length_app. simpl. lia. }
    destruct skip as [|skip]; cbn [scanFrom].
    + destruct (matchAt r (String c s) (String.length pre) pv) as [m|] eqn:E.
      * apply matchAt_located in E as [Hi Hloc].
        destruct (String.length (matched m)) as [|n] eqn:Hn.
        -- destruct (IH (pre ++ String c EmptyString)%string (Some c) 0%nat)
             as (H1 & H2 & H3).
           rewrite snoc_app, Hlen in *. simpl.
           repeat split.
           ++ constructor; assumption.
           ++ constructor; [lia|].
              eapply Forall_bound_weaken; [|exact H2]. lia.
           ++ constructor; [exact H3|].
              eapply HdRel_from_bound; [| |exact H2]; lia.
        -- destruct (IH (pre ++ String c EmptyString)%string (Some c) n)
             as (H1 & H2 & H3).
           rewrite snoc_app, Hlen in *. simpl.
           repeat split.
           ++ constructor; assumption.
           ++ constructor; [lia|].
              eapply Forall_bound_weaken; [|exact H2]. lia.
           ++ constructor; [exact H3|].
              eapply HdRel_from_bound; [| |exact H2]; lia.
      * destruct (IH (pre ++ String c EmptyString)%string (Some c) 0%nat)
          as (H1 & H2 & H3).
        rewrite snoc_app, Hlen in *. simpl.
        repeat split; [exact H1 | | exact H3].
        eapply Forall_bound_weaken; [|exact H2]. lia.
    + destruct (IH (pre ++ String c EmptyString)%string (Some c) skip)
        as (H1 & H2 & H3).
      rewrite snoc_app, Hlen in *.
      repeat split; [exact H1 | | exact H3].
      eapply Forall_bound_weaken; [|exact H2]. lia.
Qed.

(** X23.  For every expression and text, the results of a global scan are
    the text found at their own index, lie inside the text, and come in
    document order without overlap: each starts after the previous one and
    not before it ends. *)
Theorem matches_are_located_and_ordered (r : regex) (text : string) :
  Forall (locatedIn text) (matchAll r text) ∧ Sorted before (matchAll r text).
Proof.
  destruct (scanFrom_located r text EmptyString None 0%nat) as (H1 & _ & H3).
  unfold hits in *.
  auto.
Qed.

(** *** Decorations *)

Lemma chain_nil (lo hi : nat) : chain lo hi [].
Proof. split; constructor. Qed.

Lemma chain_weaken (lo lo' hi hi' : nat) (ds : list Decoration) :
  (lo' <= lo)%nat → (hi <= hi')%nat → chain lo hi ds → chain lo' hi' ds.
Proof.
  intros Hlo Hhi [Hs Hb]. split; [exact Hs|].
  eapply Forall_impl; [exact Hb|]. intros d Hd. simpl in Hd. lia.
Qed.

Lemma chain_app (lo mid hi : nat) (ds1 ds2 : list Decoration) :
  (lo <= mid)%nat → (mid <= hi)%nat →
  chain lo mid ds1 → chain mid hi ds2 → chain lo hi (ds1 ++ ds2).
Proof.
  intros Hlo Hhi [Hs1 Hb1] [Hs2 Hb2]. split.
  - induction ds1 as [|d ds1 IH]; [exact Hs2|].
    apply Sorted_inv in Hs1 as [Hs1 Hhd].
    apply Forall_cons in Hb1 as [Hd Hb1].
    simpl. constructor; [apply IH; assumption|].
    destruct ds1 as [|d' ds1]; simpl.
    + destruct ds2 as [|d2 ds2]; constructor.
      apply Forall_inv in Hb2. lia.
    + apply HdRel_inv in Hhd. constructor. exact Hhd.
  - apply Forall_app. split.
    + eapply Forall_impl; [exact Hb1|]. intros d Hd. simpl in Hd. lia.
    + eapply Forall_impl; [exact Hb2|]. intros d Hd. simpl in Hd. lia.
Qed.

Lemma wellShaped_length (m : MatchResult) :
  wellShaped m → (5 <= String.length (matched m))%nat.
Proof.
  intros (t & _ & Hne & _ & H).
  assert (Ht : (1 <= String.length t)%nat).
  { destruct t; [contradiction | simpl; lia]. }
  destruct (lookupGroup 2 (groups m)) as [a|].
  - destruct H as (_ & _ & ->).
    change ("[[" ++ t ++ "|" ++ a ++ "]]")%string
      with (String "[" (String "[" (t ++ String "|" (a ++ "]]")))).
    simpl. rewrite string_length_app. simpl. rewrite string_length_app.
    simpl. lia.
  - rewrite H.
    change ("[[" ++ t ++ "]]")%string with (String "[" (String "[" (t ++ "]]"))).
    simpl. rewrite string_length_app. simpl. lia.
Qed.

Lemma decorateMatch_chain (view : EditorView) (from : nat) (m : MatchResult) :
  (5 <= String.length (matched m))%nat →
  chain (from + index m) (from + index m + String.length (matched m))
        (decorateMatch view from m).
Proof.
  intros Hlen. unfold decorateMatch.
  destruct (inCodeBlock _ _ (tree view)); [apply chain_nil|].
  split.
  - repeat constructor; simpl; lia.
  - repeat constructor; simpl; lia.
Qed.

Lemma before_trans : Relations_1.Transitive before.
Proof. intros a b c [H1 H2] [H3 H4]. unfold before. lia. Qed.

Lemma matches_chain (view : EditorView) (from L : nat) (ms : list MatchResult) :
  ∀ lb, (lb <= L)%nat →
    StronglySorted before ms →
    Forall (fun m => (lb <= index m)%nat ∧
                     (5 <= String.length (matched m))%nat ∧
                     (index m + String.length (matched m) <= L)%nat) ms →
    chain (from + lb) (from + L) (flat_map (decorateMatch view from) ms).
Proof.
  induction ms as [|m ms IH]; intros lb Hlb Hs Hb; simpl; [apply chain_nil|].
  apply StronglySorted_inv in Hs as [Hs Hhd].
  apply Forall_cons in Hb as [(Hm1 & Hm2 & Hm3) Hb].
  apply (chain_app _ (from + (index m + String.length (matched m)))); [lia | lia | |].
  - eapply chain_weaken; [| |apply decorateMatch_chain; exact Hm2]; lia.
  - apply IH; [lia | exact Hs|].
    apply Forall_forall. intros m' Hin.
    assert (Hbm : before m m').
    { rewrite List.Forall_forall in Hhd. apply Hhd.
      apply list_elem_of_In. exact Hin. }
    rewrite Forall_forall in Hb. specialize (Hb m' Hin).
    unfold before in Hbm. lia.
Qed.

Lemma substring_length_le (n k : nat) (s : string) :
  (String.length (String.substring n k s) <= k)%nat.
Proof.
  revert n k. induction s as [|c s IH]; intros n k.
  - destruct n, k; simpl; lia.
  - destruct n as [|n]; simpl.
    + destruct k as [|k]; simpl; [lia|]. specialize (IH 0%nat k). lia.
    + apply IH.
Qed.

Lemma range_chain (view : EditorView) (from to : nat) :
  (from <= to)%nat →
  chain from to
    (flat_map (decorateMatch view from)
       (matchAll wikilinkRegex (JsString.slice (doc view) from to))).
Proof.
  intros Hft.
  set (text := JsString.slice (doc view) from to).
  assert (Hlen : (String.length text <= to - from)%nat)
    by apply substring_length_le.
  destruct (scanFrom_located wikilinkRegex text EmptyString None 0%nat)
    as (Hloc & _ & Hsorted).
  assert (Hshape : Forall wellShaped (matchAll wikilinkRegex text)).
  { apply matchAll_Forall. intros s i pv m.
    rewrite wikilinkRegex_matchAt. apply wikilinkAt_wellShaped. }
  eapply chain_weaken;
    [| |apply (matches_chain view from (String.length text) _ 0%nat)].
  - lia.
  - lia.
  - lia.
  - apply Sorted_StronglySorted; [exact before_trans | exact Hsorted].
  - apply Forall_forall. intros m Hm.
    rewrite Forall_forall in Hloc, Hshape.
    destruct (Hloc m Hm) as [_ Hin]. rewrite app_empty in Hin.
    pose proof (wellShaped_length m (Hshape m Hm)). lia.
Qed.

Lemma ranges_chain (view : EditorView) (rs : list (nat * nat)) :
  ∀ lo, rangesFrom lo rs →
    ∃ hi, (lo <= hi)%nat ∧
      chain lo hi
        (flat_map
           (fun '(from, to) =>
              let text := JsString.slice (doc view) from to in
              flat_map (decorateMatch view from) (matchAll wikilinkRegex text))
           rs).
Proof.
  induction rs as [|[f t] rs IH]; intros lo Hr; simpl.
  - exists lo. split; [lia | apply chain_nil].
  - destruct Hr as (Hlo & Hft & Hr).
    destruct (IH t Hr) as (hi & Hhi & Hc).
    exists hi. split; [lia|].
    apply (chain_app _ t); [lia | lia | | exact Hc].
    eapply chain_weaken; [| |apply range_chain; exact Hft]; lia.
Qed.

(** X24.  The decorations come out in the order a range-set builder needs:
    when the visible ranges follow one another without overlap, every
    decoration is a non-empty interval, each begins where or after the one
    before it ends, and each lies inside one of the visible ranges. *)
Theorem decorations_are_ordered_and_inside (view : EditorView) :
  rangesFrom 0 (visibleRanges view) →
  Sorted (fun a b => (d_to a <= d_from b)%nat) (buildWikilinkDecorations view) ∧
  Forall (fun d => (d_from d < d_to d)%nat ∧
                   ∃ r, In r (visibleRanges view) ∧
                        (fst r <= d_from d)%nat ∧ (d_to d <= snd r)%nat)
         (buildWikilinkDecorations view).
Proof.
  intros Hr. unfold buildWikilinkDecorations.
  destruct (ranges_chain view (visibleRanges view) 0%nat Hr) as (hi & _ & [Hs Hb]).
  split; [exact Hs|].
  apply Forall_forall. intros d Hd.
  rewrite Forall_forall in Hb. destruct (Hb d Hd) as (_ & Hne & _).
  split; [exact Hne|].
  apply list_elem_of_In in Hd. apply in_flat_map in Hd as ([f t] & Hin & Hd).
  exists (f, t). split; [exact Hin|]. simpl.
  assert (Hft : (f <= t)%nat).
  { clear -Hr Hin. revert Hr Hin. generalize 0%nat.
    induction (visibleRanges view) as [|[f' t'] rs IH]; intros lo Hr Hin;
      [destruct Hin|].
    destruct Hr as (_ & Hft & Hr). destruct Hin as [[= -> ->] | Hin];
      [exact Hft | exact (IH _ Hr Hin)]. }
  destruct (range_chain view f t Hft) as [_ Hb'].
  rewrite Forall_forall in Hb'. apply list_elem_of_In in Hd.
  destruct (Hb' d Hd) as (H1 & _ & H3). lia.
Qed.

Lemma decorations_are_ordered_and_inside_witness :
  Sorted (fun a b => (d_to a <= d_from b)%nat)
         (buildWikilinkDecorations twoRangeView).
Proof.
  apply (decorations_are_ordered_and_inside twoRangeView).
  simpl. lia.
Defined.

Example decorations_twoRangeView :
  map (fun d => (d_from d, d_to d)) (buildWikilinkDecorations twoRangeView)
  = [(0, 2); (2, 3); (3, 5); (14, 16); (16, 19); (19, 21)]%nat.
Proof. vm_compute. reflexivity. Qed.

(** *** The matcher on the wikilink expression *)

(** X25.  Backtracking never changes what [wikilinkRegex] finds: an attempt
    at any position gives exactly the result of the direct description
    [wikilinkAt] (two opening brackets, the longest target run, optionally
    a bar and the longest alias run, two closing brackets). *)
Theorem wikilink_attempt_is_greedy (s : string) (i : nat) (pv : option ascii) :
  matchAt wikilinkRegex s i pv = wikilinkAt s i.
Proof. apply wikilinkRegex_matchAt. Qed.

(** X26.  The four reference forms are read as follows, wherever they stand
    at the front of a text: [[[target]]] gives the target;
    [[[target|alias]]] the target and the alias; in [[[target#heading]]]
    and [[[target#^blockid]]] the anchor is not split off: it stays part of
    the target. *)
Theorem wikilink_forms_are_read (target alias heading blockid rest : string) :
  target ≠ EmptyString → allChars notBracketOrBar target = true →
  alias ≠ EmptyString → allChars notBracket alias = true →
  allChars notBracketOrBar heading = true →
  allChars notBracketOrBar blockid = true →
  (group 1 <$> head (matchAll wikilinkRegex ("[[" ++ target ++ "]]" ++ rest))
   = Some target) ∧
  ((fun m => (group 1 m, group 2 m)) <$>
     head (matchAll wikilinkRegex ("[[" ++ target ++ "|" ++ alias ++ "]]" ++ rest))
   = Some (target, alias)) ∧
  (group 1 <$>
     head (matchAll wikilinkRegex ("[[" ++ (target ++ "#" ++ heading) ++ "]]" ++ rest))
   = Some (target ++ "#" ++ heading)%string) ∧
  (group 1 <$>
     head (matchAll wikilinkRegex ("[[" ++ (target ++ "#^" ++ blockid) ++ "]]" ++ rest))
   = Some (target ++ "#^" ++ blockid)%string).
Proof.
  intros H1 H2 H3 H4 H5 H6.
  destruct (four_forms_recognized target alias heading blockid rest
              H1 H2 H3 H4 H5 H6) as (Ha & Hb & Hc & Hd).
  rewrite Ha, Hb, Hc, Hd. repeat split.
Qed.

Lemma wikilink_forms_are_read_witness :
  group 1 <$>
    head (matchAll wikilinkRegex
            ("[[" ++ ("Note" ++ "#" ++ "Intro") ++ "]]" ++ " and more"))
  = Some ("Note" ++ "#" ++ "Intro")%string.
Proof.
  destruct (wikilink_forms_are_read "Note" "shown" "Intro" "b1" " and more")
    as (_ & _ & H & _);
    [discriminate | reflexivity | discriminate | reflexivity | reflexivity
    | reflexivity | exact H].
Defined.

(** X27.  The editor decoration skips every match that lies inside a code
    node of the syntax tree: no decoration is built for it. *)
Theorem matches_inside_code_get_no_decoration
    (view : EditorView) (from : nat) (m : MatchResult) :
  inCodeNode (from + index m) (from + index m + String.length (matched m))
             (tree view) →
  decorateMatch view from m = [].
Proof. apply decorations_skip_code. Qed.

Lemma matches_inside_code_get_no_decoration_witness :
  decorateMatch
    {| doc := inlineCodeDoc; visibleRanges := [(0, 7)%nat]; tree := inlineCodeTree |}
    0 {| index := 1; matched := "[[a]]"; groups := [(1%nat, "a")] |} = [].
Proof.
  apply matches_inside_code_get_no_decoration. simpl.
  apply (code_below _ _ _ _ _ _ (Node "Paragraph" 0 7
           [Node "InlineCode" 0 7 [Node "CodeMark" 0 1 []; Node "CodeMark" 6 7 []]]));
    [lia | lia | left; reflexivity |].
  apply (code_below _ _ _ _ _ _ (Node "InlineCode" 0 7
           [Node "CodeMark" 0 1 []; Node "CodeMark" 6 7 []]));
    [lia | lia | left; reflexivity |].
  apply code_here; [reflexivity | lia | lia].
Defined.
